(** * PasswordCracker: a shallow embedding of [password_cracker.py]

    The Python class [PasswordCracker] is modelled as a record holding the
    attributes that [__init__] creates.  Methods take the instance and return
    the updated instance.  Python integers are [Z], Python strings are
    [string], and the two dictionaries are [gmap]s.  The wall clock is an
    oracle [time_time : nat -> Q]: its [n]-th reading is [time_time n], and
    the number of readings made so far is threaded next to the instance.

    Floating point values come in two kinds.  The readings of the clock, and
    the differences and rates computed from them, are kept as the rationals
    they denote: their arithmetic is exact.  The two percentages of the
    report are computed from integers alone, so their values are determined,
    and they are computed as Python does: in IEEE 754 binary64, each
    operation rounding to the nearest double with ties going to the even
    significand, and [round] going through the decimal expansion of the
    double it is given.

    Operations that can raise in Python (true division, or arithmetic on
    [None]) produce an [outcome].  Console output is not modelled. *)

From Stdlib Require Import ZArith QArith Qround Qabs Qpower Ascii String List
  Lia Lqa Sorted.
From stdpp Require Import gmap strings list fin_maps.

Local Open Scope Z_scope.

(** ** Exceptions *)

Inductive exception := ZeroDivisionError | TypeError | OverflowError.

Inductive outcome (A : Type) :=
| Returned (a : A)
| Raised (e : exception).
Arguments Returned {A} a.
Arguments Raised {A} e.

#[global] Instance outcome_ret : MRet outcome := fun _ a => Returned a.
#[global] Instance outcome_bind : MBind outcome := fun _ _ k o =>
  match o with
  | Returned a => k a
  | Raised e => Raised e
  end.

(** ** Arithmetic on clock readings, kept exact *)

(** [a / b] : raises [ZeroDivisionError] on a zero divisor. *)
Definition true_div (a b : Q) : outcome Q :=
  if Qeq_bool b 0 then Raised ZeroDivisionError else Returned (a / b)%Q.

(** [a > b] *)
Definition Qgtb (a b : Q) : bool := negb (Qle_bool a b).

(** Rounding to the nearest integer, ties to even. *)
Definition round_half_even (x : Q) : Z :=
  let f := Qfloor x in
  match ((x - inject_Z f) ?= 1 # 2)%Q with
  | Lt => f
  | Gt => f + 1
  | Eq => if Z.even f then f else f + 1
  end.

(** The multiple of [10 ^ -ndigits] nearest to [x], ties to even. *)
Definition round_decimal (x : Q) (ndigits : nat) : Q :=
  (inject_Z (round_half_even (x * inject_Z (10 ^ Z.of_nat ndigits)))
   / inject_Z (10 ^ Z.of_nat ndigits))%Q.

(** ** Python floats: IEEE 754 binary64

    A [float] is a double: a finite one is given by its value, and the sign
    of a zero is not kept (the two zeros are equal and both falsy). *)
Inductive float :=
| Finite (x : Q)
| Infinity (negative : bool)
| NaN.

(** For a positive [x], the [l] with [2 ^ l <= x < 2 ^ (l + 1)]. *)
Definition binade (x : Q) : Z :=
  let d := Z.log2 (Qnum x) - Z.log2 (Zpos (Qden x)) in
  if Qle_bool (2 ^ d) x then d else d - 1.

(** The double nearest to [x], ties going to the even significand.  The
    doubles around [x] are the multiples of [2 ^ e], where [e] leaves 53
    bits of significand and is no less than -1074; from [2 ^ 1024] on the
    result is infinite. *)
Definition binary64 (x : Q) : float :=
  let x := Qred x in
  if Qeq_bool x 0 then Finite 0
  else
    let e := Z.max (binade (Qabs x) - 52) (-1074) in
    let y := (inject_Z (round_half_even (x / 2 ^ e)) * 2 ^ e)%Q in
    if Qle_bool (2 ^ 1024) (Qabs y) then Infinity (Qle_bool x 0)
    else Finite (Qred y).

(** [a / b] on two [int]s: the correctly rounded quotient;
    [ZeroDivisionError] on a zero divisor, [OverflowError] when the
    quotient is too large for a double. *)
Definition int_true_div (a b : Z) : outcome float :=
  if b =? 0 then Raised ZeroDivisionError
  else match binary64 (inject_Z a / inject_Z b) with
       | Finite x => Returned (Finite x)
       | _ => Raised OverflowError
       end.

(** [x * y] on two [float]s; it overflows to an infinity without raising. *)
Definition float_mul (x y : float) : float :=
  match x, y with
  | Finite a, Finite b => binary64 (a * b)
  | Finite a, Infinity s | Infinity s, Finite a =>
      if Qeq_bool a 0 then NaN else Infinity (xorb s (Qle_bool a 0))
  | Infinity s, Infinity s' => Infinity (xorb s s')
  | NaN, _ | _, NaN => NaN
  end.

(** [round(x, ndigits)] on a [float], for [ndigits >= 0]: the exact value
    of [x] is rounded to [ndigits] decimal places, and the decimal obtained
    is read back as a double.  Infinities and NaN round to themselves. *)
Definition round (x : float) (ndigits : nat) : float :=
  match x with
  | Finite x => binary64 (round_decimal x ndigits)
  | _ => x
  end.

(** ** The [string] module constants *)

Definition ascii_lowercase : string := "abcdefghijklmnopqrstuvwxyz".
Definition ascii_uppercase : string := "ABCDEFGHIJKLMNOPQRSTUVWXYZ".
Definition ascii_letters : string := ascii_lowercase +:+ ascii_uppercase.
Definition digits : string := "0123456789".
Definition punctuation : string :=
  "!" +:+ String "034"%char "#$%&'()*+,-./:;<=>?@[\]^_`{|}~".

(** Iterating over a [str] yields its characters. *)
Definition chars (s : string) : list ascii := list_ascii_of_string s.

(** [''.join(t)] for a tuple of one-character strings. *)
Definition join (t : list ascii) : string := string_of_list_ascii t.

(** [len(s)] *)
Definition len (s : string) : Z := Z.of_nat (String.length s).

(** [c in s] *)
Definition char_in (c : ascii) (s : string) : bool :=
  existsb (Ascii.eqb c) (chars s).

(** ** [itertools.product(pool, repeat=n)]

    Following the reference implementation in the [itertools]
    documentation:
<<
    result = [[]]
    for pool in pools:
        result = [x+[y] for x in result for y in pool]
>> *)
Fixpoint product {A : Type} (pool : list A) (repeat : nat) : list (list A) :=
  match repeat with
  | O => [[]]
  | S n => flat_map (fun x => map (fun y => x ++ [y]) pool) (product pool n)
  end.

(** [range(1, stop + 1)]; the loop variable is used as a repeat count. *)
Definition range1 (stop : Z) : list nat := seq 1 (Z.to_nat stop).

(** [sum(base ** i for i in range(1, stop + 1))] *)
Definition sum_powers (base : Z) (stop : Z) : Z :=
  fold_right Z.add 0 (map (fun i => base ^ Z.of_nat i) (range1 stop)).

(** ** The instance *)

Record Checkpoint := mkCheckpoint {
  cp_attempts : Z;
  cp_time : Q;
  cp_rate : Q
}.

Record PasswordCracker := mkPasswordCracker {
  password : string;
  max_length : Z;
  charset : string;
  verbose : bool;
  attempts : Z;
  start_time : option Q;
  end_time : option Q;
  found : bool;
  cracked_password : option string;
  length_attempts : gmap nat Z;
  charset_hits : gmap ascii Z;
  time_checkpoints : list Checkpoint
}.

Definition set_attempts (v : Z) (self : PasswordCracker) : PasswordCracker :=
  mkPasswordCracker (password self) (max_length self) (charset self)
    (verbose self) v (start_time self) (end_time self) (found self)
    (cracked_password self) (length_attempts self) (charset_hits self)
    (time_checkpoints self).

Definition set_start_time (v : option Q) (self : PasswordCracker)
  : PasswordCracker :=
  mkPasswordCracker (password self) (max_length self) (charset self)
    (verbose self) (attempts self) v (end_time self) (found self)
    (cracked_password self) (length_attempts self) (charset_hits self)
    (time_checkpoints self).

Definition set_end_time (v : option Q) (self : PasswordCracker)
  : PasswordCracker :=
  mkPasswordCracker (password self) (max_length self) (charset self)
    (verbose self) (attempts self) (start_time self) v (found self)
    (cracked_password self) (length_attempts self) (charset_hits self)
    (time_checkpoints self).

Definition set_found (v : bool) (self : PasswordCracker) : PasswordCracker :=
  mkPasswordCracker (password self) (max_length self) (charset self)
    (verbose self) (attempts self) (start_time self) (end_time self) v
    (cracked_password self) (length_attempts self) (charset_hits self)
    (time_checkpoints self).

Definition set_cracked_password (v : option string) (self : PasswordCracker)
  : PasswordCracker :=
  mkPasswordCracker (password self) (max_length self) (charset self)
    (verbose self) (attempts self) (start_time self) (end_time self)
    (found self) v (length_attempts self) (charset_hits self)
    (time_checkpoints self).

Definition set_length_attempts (v : gmap nat Z) (self : PasswordCracker)
  : PasswordCracker :=
  mkPasswordCracker (password self) (max_length self) (charset self)
    (verbose self) (attempts self) (start_time self) (end_time self)
    (found self) (cracked_password self) v (charset_hits self)
    (time_checkpoints self).

Definition set_charset_hits (v : gmap ascii Z) (self : PasswordCracker)
  : PasswordCracker :=
  mkPasswordCracker (password self) (max_length self) (charset self)
    (verbose self) (attempts self) (start_time self) (end_time self)
    (found self) (cracked_password self) (length_attempts self) v
    (time_checkpoints self).

Definition set_time_checkpoints (v : list Checkpoint) (self : PasswordCracker)
  : PasswordCracker :=
  mkPasswordCracker (password self) (max_length self) (charset self)
    (verbose self) (attempts self) (start_time self) (end_time self)
    (found self) (cracked_password self) (length_attempts self)
    (charset_hits self) v.

(** ** [__init__]

    [charset or (ascii_letters + digits + punctuation)]: both [None] and the
    empty string are falsy. *)
Definition default_charset : string := ascii_letters +:+ digits +:+ punctuation.

Definition charset_or_default (charset : option string) : string :=
  match charset with
  | None => default_charset
  | Some EmptyString => default_charset
  | Some cs => cs
  end.

Definition __init__ (password : string) (max_length : Z)
    (charset : option string) (verbose : bool) : outcome PasswordCracker :=
  Returned
    {| password := password;
       max_length := max_length;
       charset := charset_or_default charset;
       verbose := verbose;
       attempts := 0;
       start_time := None;
       end_time := None;
       found := false;
       cracked_password := None;
       length_attempts := ∅;
       charset_hits := ∅;
       time_checkpoints := [] |}.

(** ** [estimate_theoretical_time] and [analyze_password_complexity] *)

Record Theoretical := mkTheoretical {
  total_combinations : Z;
  th_charset_size : Z;
  password_length : Z
}.

Definition estimate_theoretical_time (self : PasswordCracker) : Theoretical :=
  let charset_size := len (charset self) in
  let password_length := len (password self) in
  {| total_combinations := sum_powers charset_size password_length;
     th_charset_size := charset_size;
     password_length := password_length |}.

Record Analysis := mkAnalysis {
  an_length : Z;
  has_lowercase : bool;
  has_uppercase : bool;
  has_digits : bool;
  has_special : bool;
  unique_chars : Z;
  character_types : Z;
  search_space : Z;
  exact_length_space : Z
}.

Definition any_in (class : string) (s : string) : bool :=
  existsb (fun c => char_in c class) (chars s).

Definition analyze_password_complexity (self : PasswordCracker) : Analysis :=
  let lower := any_in ascii_lowercase (password self) in
  let upper := any_in ascii_uppercase (password self) in
  let digit := any_in digits (password self) in
  let special := any_in punctuation (password self) in
  let types := 0 in
  let types := if lower then types + 1 else types in
  let types := if upper then types + 1 else types in
  let types := if digit then types + 1 else types in
  let types := if special then types + 1 else types in
  let charset_size := len (charset self) in
  {| an_length := len (password self);
     has_lowercase := lower;
     has_uppercase := upper;
     has_digits := digit;
     has_special := special;
     unique_chars :=
       Z.of_nat (size (list_to_set (chars (password self)) : gset ascii));
     character_types := types;
     search_space := sum_powers charset_size (max_length self);
     exact_length_space := charset_size ^ len (password self) |}.

(** ** [crack] *)

Section Methods.

(** The [n]-th reading of [time.time()]. *)
Variable time_time : nat -> Q.

(** [datetime.now().isoformat()] at report time. *)
Variable datetime_now_isoformat : string.

(** [self.charset_hits[char] += 1]; a [Counter] reads 0 at a missing key. *)
Definition count_char (hits : gmap ascii Z) (char : ascii) : gmap ascii Z :=
  <[char := default 0 (hits !! char) + 1]> hits.

(** [attempts / elapsed if elapsed > 0 else 0] *)
Definition guarded_rate (attempts : Z) (elapsed : Q) : outcome Q :=
  if Qgtb elapsed 0 then true_div (inject_Z attempts) elapsed
  else Returned 0%Q.

(** The body of the inner loop up to, and excluding, the comparison with
    the target. *)
Definition attempt (self : PasswordCracker) (t : nat) (guess : string)
  : outcome (PasswordCracker * nat) :=
  let self := set_attempts (attempts self + 1) self in
  let self :=
    set_charset_hits (fold_left count_char (chars guess) (charset_hits self))
      self in
  if verbose self && (attempts self mod 100000 =? 0) then
    match start_time self with
    | None => Raised TypeError
    | Some started =>
        let elapsed := (time_time t - started)%Q in
        rate ← guarded_rate (attempts self) elapsed;
        mret (set_time_checkpoints
                (time_checkpoints self
                   ++ [mkCheckpoint (attempts self) elapsed rate]) self,
              S t)
    end
  else mret (self, t).

(** [for guess_tuple in itertools.product(...)], with its [break]. *)
Fixpoint for_guess (self : PasswordCracker) (t : nat)
    (guess_tuples : list (list ascii)) : outcome (PasswordCracker * nat) :=
  match guess_tuples with
  | [] => mret (self, t)
  | guess_tuple :: rest =>
      let guess := join guess_tuple in
      '(self, t) ← attempt self t guess;
      if String.eqb guess (password self) then
        mret (set_cracked_password (Some guess) (set_found true self), t)
      else for_guess self t rest
  end.

(** [for length in range(1, self.max_length + 1)], with its [break]. *)
Fixpoint for_length (self : PasswordCracker) (t : nat) (lengths : list nat)
  : outcome (PasswordCracker * nat) :=
  match lengths with
  | [] => mret (self, t)
  | length :: rest =>
      let length_start := attempts self in
      '(self, t) ← for_guess self t (product (chars (charset self)) length);
      let self :=
        set_length_attempts
          (<[length := attempts self - length_start]> (length_attempts self))
          self in
      if found self then mret (self, t) else for_length self t rest
  end.

(** The first statement of [crack]: the start timestamp is taken. *)
Definition crack_start (self : PasswordCracker) (t : nat)
  : PasswordCracker * nat :=
  (set_start_time (Some (time_time t)) self, S t).

(** [crack] returns [self.found] and leaves the updated instance. *)
Definition crack (self : PasswordCracker) (t : nat)
  : outcome (bool * (PasswordCracker * nat)) :=
  let '(self, t) := crack_start self t in
  '(self, t) ← for_length self t (range1 (max_length self));
  let self := set_end_time (Some (time_time t)) self in
  mret (found self, (self, S t)).

(** ** [generate_report] *)

Record Performance := mkPerformance {
  total_attempts : Z;
  duration_seconds : float;
  attempts_per_second : float;
  efficiency_percentage : float
}.

Record SearchStrategy := mkSearchStrategy {
  ss_max_length : Z;
  charset_size : Z;
  attempts_by_length : gmap nat Z
}.

Record SearchEfficiency := mkSearchEfficiency {
  combinations_tried : Z;
  total_search_space : Z;
  percentage_explored : float
}.

Record Report := mkReport {
  success : bool;
  rp_password : option string;
  performance : Performance;
  search_strategy : SearchStrategy;
  password_analysis : option Analysis;
  timestamp : string;
  search_efficiency : option SearchEfficiency
}.

(** [self.end_time - self.start_time if self.end_time else 0]; [None] and
    [0.0] are falsy. *)
Definition duration_of (self : PasswordCracker) : outcome Q :=
  match end_time self with
  | None => Returned 0%Q
  | Some ended =>
      if Qeq_bool ended 0 then Returned 0%Q
      else match start_time self with
           | None => Raised TypeError
           | Some started => Returned (ended - started)%Q
           end
  end.

(** [(1 / self.attempts * 100) if self.attempts > 0 else 0]; the [int] 0
    of the second branch is kept as the double of the same value, which
    [round] leaves at 0. *)
Definition efficiency_of (attempts : Z) : outcome float :=
  if attempts >? 0 then
    x ← int_true_div 1 attempts; mret (float_mul x (Finite 100))
  else Returned (Finite 0).

(** [self.attempts / total_combinations * 100] *)
Definition explored_of (attempts total : Z) : outcome float :=
  x ← int_true_div attempts total; mret (float_mul x (Finite 100)).

(** [duration] and [rate] derive from the clock and are rationals; [round]
    takes each as the double of that value. *)
Definition generate_report (self : PasswordCracker) : outcome Report :=
  duration ← duration_of self;
  rate ← guarded_rate (attempts self) duration;
  efficiency ← efficiency_of (attempts self);
  let report :=
    {| success := found self;
       rp_password := if found self then cracked_password self else None;
       performance :=
         {| total_attempts := attempts self;
            duration_seconds := round (Finite duration) 3;
            attempts_per_second := round (Finite rate) 2;
            efficiency_percentage := round efficiency 6 |};
       search_strategy :=
         {| ss_max_length := max_length self;
            charset_size := len (charset self);
            attempts_by_length := length_attempts self |};
       password_analysis := None;
       timestamp := datetime_now_isoformat;
       search_efficiency := None |} in
  if found self then
    let analysis := analyze_password_complexity self in
    let theoretical := estimate_theoretical_time self in
    explored ← explored_of (attempts self) (total_combinations theoretical);
    mret (mkReport (success report) (rp_password report)
            (performance report) (search_strategy report) (Some analysis)
            (timestamp report)
            (Some {| combinations_tried := attempts self;
                     total_search_space := total_combinations theoretical;
                     percentage_explored := round explored 4 |}))
  else mret report.

End Methods.

(** The loop body run on each guess of a list, in order. *)
Fixpoint attempt_each (time_time : nat -> Q) (self : PasswordCracker)
    (t : nat) (guesses : list string) : outcome (PasswordCracker * nat) :=
  match guesses with
  | [] => mret (self, t)
  | guess :: rest =>
      '(self, t) ← attempt time_time self t guess;
      attempt_each time_time self t rest
  end.

Definition tick_clock (n : nat) : Q := inject_Z (Z.of_nat n).

Definition run (password : string) (max_length : Z) (charset : option string)
    (verbose : bool) : outcome (bool * (PasswordCracker * nat)) :=
  self ← __init__ password max_length charset verbose; crack tick_clock self 0.


(** ** The enumeration order, stated independently of the loops *)

(** The prefix of [l] up to and including the first element at which [stop]
    holds; all of [l] when there is none. *)
Fixpoint take_through {A : Type} (stop : A -> bool) (l : list A) : list A :=
  match l with
  | [] => []
  | x :: l' => if stop x then [x] else x :: take_through stop l'
  end.

Definition is_target (pw guess : string) : bool := String.eqb guess pw.

(** The candidates of one length, in the order the inner loop meets them. *)
Definition candidates (cs : string) (n : nat) : list string :=
  map join (product (chars cs) n).

(** Length 1 first, then length 2, ... up to [m]. *)
Definition all_candidates (cs : string) (m : Z) : list string :=
  flat_map (candidates cs) (range1 m).

(** The candidates a search for [pw] compares, the match included. *)
Definition tried (pw cs : string) (m : Z) : list string :=
  take_through (is_target pw) (all_candidates cs m).

(** The [n] digits of [i] in base [k], most significant first. *)
Fixpoint numeral (k n i : nat) : list nat :=
  match n with
  | O => []
  | S n' => (i / k ^ n')%nat :: numeral k n' (i mod k ^ n')%nat
  end.

(** The value of a list of base-[k] digits, most significant first. *)
Definition numeral_value (k : nat) (ds : list nat) : nat :=
  fold_left (fun acc d => (acc * k + d)%nat) ds O.

(** The string spelled by a list of digits over the alphabet [cs]. *)
Definition spell (cs : string) (ds : list nat) : string :=
  join (map (fun d => nth d (chars cs) Ascii.zero) ds).

(** Occurrences of [c] over a list of candidates. *)
Definition occurrences (c : ascii) (gs : list string) : Z :=
  Z.of_nat (count_occ Ascii.ascii_dec (flat_map chars gs) c).

(** ** The net effect of a run of attempts *)

Definition mark_found (pw : string) (self : PasswordCracker)
  : PasswordCracker :=
  set_cracked_password (Some pw) (set_found true self).

(** What the inner loop compares at length [n], and whether it matches. *)
Definition guesses_of_length (pw cs : string) (n : nat) : list string :=
  take_through (is_target pw) (candidates cs n).

Definition hit (pw cs : string) (n : nat) : bool :=
  existsb (is_target pw) (candidates cs n).

(** The lengths the outer loop visits: it leaves after the first length at
    which the found flag is set, be it from this run or from before. *)
Definition lengths_run (found0 : bool) (pw cs : string) (lengths : list nat)
  : list nat :=
  take_through (fun n => found0 || hit pw cs n) lengths.

Definition guesses_run (found0 : bool) (pw cs : string) (lengths : list nat)
  : list string :=
  flat_map (guesses_of_length pw cs) (lengths_run found0 pw cs lengths).

Definition counts_run (found0 : bool) (pw cs : string) (lengths : list nat)
    (counts : gmap nat Z) : gmap nat Z :=
  fold_left
    (fun m n => <[n := Z.of_nat (length (guesses_of_length pw cs n))]> m)
    (lengths_run found0 pw cs lengths) counts.

Definition rate_value (n : Z) (elapsed : Q) : Q :=
  if Qgtb elapsed 0 then (inject_Z n / elapsed)%Q else 0%Q.

Section Effects.

Variable time_time : nat -> Q.

Definition snapshot (started : Q) (n : Z) (t : nat) : Checkpoint :=
  mkCheckpoint n (time_time t - started)%Q
    (rate_value n (time_time t - started)%Q).

(** The checkpoints appended by [n] attempts made from a counter at [a],
    the clock having been read [t] times. *)
Fixpoint new_checkpoints (started : Q) (v : bool) (a : Z) (t n : nat)
  : list Checkpoint :=
  match n with
  | O => []
  | S n' =>
      if v && ((a + 1) mod 100000 =? 0)
      then snapshot started (a + 1) t
             :: new_checkpoints started v (a + 1) (S t) n'
      else new_checkpoints started v (a + 1) t n'
  end.

Definition after_attempts (started : Q) (self : PasswordCracker) (t : nat)
    (gs : list string) : PasswordCracker * nat :=
  let cps :=
    new_checkpoints started (verbose self) (attempts self) t (length gs) in
  (mkPasswordCracker (password self) (max_length self) (charset self)
     (verbose self) (attempts self + Z.of_nat (length gs))
     (start_time self) (end_time self) (found self)
     (cracked_password self) (length_attempts self)
     (fold_left count_char (flat_map chars gs) (charset_hits self))
     (time_checkpoints self ++ cps),
   (t + length cps)%nat).

(** The instance and the clock as a whole [crack] leaves them. *)
Definition after_crack (self : PasswordCracker) (t : nat)
  : PasswordCracker * nat :=
  let pw := password self in
  let cs := charset self in
  let lengths := range1 (max_length self) in
  let '(s, t') :=
    after_attempts (time_time t) (set_start_time (Some (time_time t)) self)
      (S t) (guesses_run (found self) pw cs lengths) in
  let s :=
    if existsb (hit pw cs) (lengths_run (found self) pw cs lengths)
    then mark_found pw s else s in
  let s :=
    set_length_attempts
      (counts_run (found self) pw cs lengths (length_attempts self)) s in
  (set_end_time (Some (time_time t')) s, S t').

End Effects.

(** The instance [__init__] builds: the configuration, and every counter at
    its initial value. *)
Definition zeroed (pw : string) (m : Z) (alphabet : string) (v : bool)
  : PasswordCracker :=
  mkPasswordCracker pw m alphabet v 0 None None false None ∅ ∅ [].

(** The values the attempts counter takes on its way from [lo] to [hi]:
    [lo + 1], ..., [hi]. *)
Definition counter_values (lo hi : Z) : list Z :=
  map (fun i => lo + Z.of_nat i) (seq 1 (Z.to_nat (hi - lo))).

Definition is_multiple_of_interval (n : Z) : bool := n mod 100000 =? 0.

(** The instances a program can hold: a new one, or one on which [crack]
    has returned, any number of times and at any readings of the clock. *)
Inductive reachable (time_time : nat -> Q) : PasswordCracker -> Prop :=
| reach_init pw m cs v self :
    __init__ pw m cs v = Returned self -> reachable time_time self
| reach_crack self t b s t' :
    reachable time_time self ->
    crack time_time self t = Returned (b, (s, t')) ->
    reachable time_time s.

(** The invariant of the reachable instances. *)
Definition rate_guarded (cp : Checkpoint) : Prop :=
  cp_rate cp =
  if Qgtb (cp_time cp) 0
  then (inject_Z (cp_attempts cp) / cp_time cp)%Q else 0%Q.

Definition well_formed (self : PasswordCracker) : Prop :=
  (end_time self <> None -> start_time self <> None) /\
  (found self = true ->
   hit (password self) (charset self) (String.length (password self)) = true
   /\ (1 <= String.length (password self))%nat) /\
  0 <= attempts self /\
  Forall rate_guarded (time_checkpoints self).

(** [sum(d.values())] *)
Definition sum_values (d : gmap nat Z) : Z :=
  map_fold (fun _ count acc => count + acc) 0 d.

(** ** Further notions *)

(** The position of the first occurrence of [c] in [pool]. *)
Fixpoint index_of (c : ascii) (pool : list ascii) : nat :=
  match pool with
  | [] => O
  | y :: rest => if Ascii.eqb y c then O else S (index_of c rest)
  end.

(** A string over the alphabet [cs] read as a base-[k] numeral, each
    character standing for its position in the alphabet. *)
Definition digits_of (cs pw : string) : list nat :=
  map (fun c => index_of c (chars cs)) (chars pw).

Definition rank (cs pw : string) : nat :=
  numeral_value (String.length cs) (digits_of cs pw).

(** A clock that never runs backwards. *)
Definition monotone (time_time : nat -> Q) : Prop :=
  forall i j, (i <= j)%nat -> (time_time i <= time_time j)%Q.

(** How often one alphabet position shows up over all the candidates of the
    lengths 1 to [m]: [n * k ^ (n - 1)] times among those of length [n]. *)
Definition position_uses (k m : Z) : Z :=
  fold_right Z.add 0
    (map (fun n => Z.of_nat n * k ^ Z.of_nat (n - 1)) (range1 m)).

(** The order the checkpoints of an instance are kept in. *)
Definition checkpoints_ordered (self : PasswordCracker) : Prop :=
  StronglySorted Z.lt (map cp_attempts (time_checkpoints self)) /\
  Forall (fun cp => 0 < cp_attempts cp <= attempts self
                    /\ cp_attempts cp mod 100000 = 0)
    (time_checkpoints self) /\
  0 <= attempts self /\
  (verbose self = false -> time_checkpoints self = []).

(** What the hit counts and the matched string of an instance hold. *)
Definition counters_sound (self : PasswordCracker) : Prop :=
  (forall c n, charset_hits self !! c = Some n ->
               In c (chars (charset self)) /\ 1 <= n) /\
  cracked_password self
  = (if found self then Some (password self) else None).

(** ** Lists *)

Section ListFacts.
Context {A B C : Type}.

Lemma flat_map_flat_map (f : B -> list C) (g : A -> list B) (l : list A) :
  flat_map f (flat_map g l) = flat_map (fun x => flat_map f (g x)) l.
Proof.
  induction l as [|x l IH]; simpl; [reflexivity|].
  rewrite flat_map_app, IH. reflexivity.
Qed.

Lemma flat_map_map (f : B -> list C) (g : A -> B) (l : list A) :
  flat_map f (map g l) = flat_map (fun x => f (g x)) l.
Proof.
  induction l as [|x l IH]; simpl; [reflexivity|]. now rewrite IH.
Qed.

Lemma map_flat_map (f : B -> C) (g : A -> list B) (l : list A) :
  map f (flat_map g l) = flat_map (fun x => map f (g x)) l.
Proof.
  induction l as [|x l IH]; simpl; [reflexivity|].
  rewrite map_app, IH. reflexivity.
Qed.

Lemma length_flat_map_const (f : A -> list B) (l : list A) (m : nat) :
  (forall x, In x l -> length (f x) = m) ->
  length (flat_map f l) = (length l * m)%nat.
Proof.
  induction l as [|x l IH]; simpl; intros Hm; [reflexivity|].
  rewrite length_app, Hm, IH by auto. reflexivity.
Qed.

(** Looking up inside the [d]-th block of a concatenation of blocks of
    equal length. *)
Lemma lookup_flat_map_block (f : A -> list B) (l : list A) (m d r : nat) x :
  (forall y, In y l -> length (f y) = m) ->
  l !! d = Some x -> (r < m)%nat ->
  flat_map f l !! (d * m + r)%nat = f x !! r.
Proof.
  revert d. induction l as [|y l IH]; intros d Hm Hd Hr; [discriminate|].
  destruct d as [|d]; simpl in *.
  - injection Hd as ->. apply lookup_app_l. rewrite Hm by auto. exact Hr.
  - rewrite lookup_app_r by (rewrite Hm by auto; lia).
    rewrite Hm by auto.
    replace (m + d * m + r - m)%nat with (d * m + r)%nat by lia.
    apply IH; auto.
Qed.

Lemma take_through_app_l (stop : A -> bool) (l1 l2 : list A) :
  existsb stop l1 = true ->
  take_through stop (l1 ++ l2) = take_through stop l1.
Proof.
  induction l1 as [|x l1 IH]; simpl; [discriminate|].
  destruct (stop x); simpl; [reflexivity|]. intros H. now rewrite IH.
Qed.

Lemma take_through_app_r (stop : A -> bool) (l1 l2 : list A) :
  existsb stop l1 = false ->
  take_through stop (l1 ++ l2) = l1 ++ take_through stop l2.
Proof.
  induction l1 as [|x l1 IH]; simpl; [reflexivity|].
  destruct (stop x); simpl; [discriminate|]. intros H. now rewrite IH.
Qed.

Lemma take_through_all (stop : A -> bool) (l : list A) :
  existsb stop l = false -> take_through stop l = l.
Proof.
  intros H. rewrite <- (app_nil_r l) at 1.
  rewrite take_through_app_r by exact H. simpl. apply app_nil_r.
Qed.

Lemma length_take_through_le (stop : A -> bool) (l : list A) :
  (length (take_through stop l) <= length l)%nat.
Proof.
  induction l as [|x l IH]; simpl; [lia|]. destruct (stop x); simpl; lia.
Qed.

Lemma length_take_through_pos (stop : A -> bool) (l : list A) :
  l <> [] -> (1 <= length (take_through stop l))%nat.
Proof.
  destruct l as [|x l]; [congruence|]. simpl. destruct (stop x); simpl; lia.
Qed.

(** A search that stops short of the end of the list has stopped on a
    match. *)
Lemma take_through_short (stop : A -> bool) (l : list A) :
  (length (take_through stop l) < length l)%nat -> existsb stop l = true.
Proof.
  intros H. destruct (existsb stop l) eqn:E; [reflexivity|].
  rewrite take_through_all in H by exact E. lia.
Qed.

Lemma take_through_incl (stop : A -> bool) (l : list A) x :
  In x (take_through stop l) -> In x l.
Proof.
  induction l as [|y l IH]; simpl; [auto|].
  destruct (stop y); simpl; intuition.
Qed.

End ListFacts.

(** ** [itertools.product] counts in base [k] *)

Section ProductFacts.
Context {A : Type}.
Implicit Types (pool : list A) (n : nat).

(** The same enumeration, generated from the first position instead of the
    last. *)
Lemma product_S_cons pool n :
  product pool (S n) =
  flat_map (fun y => map (cons y) (product pool n)) pool.
Proof.
  induction n as [|n IH].
  - simpl. rewrite app_nil_r. induction pool as [|y pool IHp]; simpl; congruence.
  - change (product pool (S (S n)))
      with (flat_map (fun x => map (fun y => x ++ [y]) pool) (product pool (S n))).
    rewrite IH at 1. rewrite flat_map_flat_map.
    apply flat_map_ext. intros y.
    rewrite flat_map_map.
    change (product pool (S n))
      with (flat_map (fun x => map (fun y => x ++ [y]) pool) (product pool n)).
    rewrite map_flat_map. apply flat_map_ext. intros x.
    rewrite map_map. reflexivity.
Qed.

Lemma product_length_elem pool n x : In x (product pool n) -> length x = n.
Proof.
  revert x. induction n as [|n IH]; intros x.
  - simpl. intros [<-|[]]. reflexivity.
  - rewrite product_S_cons, in_flat_map. intros (y & _ & Hx).
    apply in_map_iff in Hx as (t & <- & Ht). simpl. f_equal. auto.
Qed.

Lemma length_product pool n :
  length (product pool n) = (length pool ^ n)%nat.
Proof.
  induction n as [|n IH]; [reflexivity|].
  rewrite product_S_cons.
  rewrite (length_flat_map_const _ _ (length pool ^ n)%nat).
  - simpl. reflexivity.
  - intros y _. rewrite length_map. exact IH.
Qed.

Lemma product_nil_pool n : product (@nil A) (S n) = [].
Proof. rewrite product_S_cons. reflexivity. Qed.

Lemma product_not_nil pool n : pool <> [] -> product pool n <> [].
Proof.
  intros Hp H. apply (f_equal (@length _)) in H.
  rewrite length_product in H. simpl in H.
  destruct pool as [|y pool]; [congruence|].
  apply Nat.pow_eq_0_iff in H. simpl in H. lia.
Qed.

(** The [i]-th tuple spells [i] in base [length pool]. *)
Lemma product_lookup pool n i (d0 : A) :
  (i < length pool ^ n)%nat ->
  product pool n !! i =
  Some (map (fun d => nth d pool d0) (numeral (length pool) n i)).
Proof.
  revert i. induction n as [|n IH]; intros i Hi.
  - simpl in *. assert (i = O) as -> by lia. reflexivity.
  - rewrite product_S_cons.
    set (k := length pool) in *. set (m := (k ^ n)%nat) in *.
    assert (Hm : (0 < m)%nat).
    { destruct (Nat.eq_dec m O) as [E|]; [|lia].
      simpl in Hi. fold m in Hi. rewrite E in Hi. lia. }
    assert (Hd : (i / m < k)%nat).
    { apply Nat.Div0.div_lt_upper_bound. simpl in Hi. fold m in Hi. lia. }
    assert (Hr : (i mod m < m)%nat) by (apply Nat.mod_upper_bound; lia).
    rewrite (Nat.div_mod_eq i m) at 1.
    replace (m * (i / m) + i mod m)%nat with (i / m * m + i mod m)%nat by lia.
    rewrite (lookup_flat_map_block _ pool m (i / m) (i mod m) (nth (i / m) pool d0)).
    + rewrite list_lookup_fmap, (IH _ Hr). reflexivity.
    + intros y _. rewrite length_map. apply length_product.
    + destruct (nth_lookup_or_length pool (i / m) d0) as [E|E]; [exact E|].
      fold k in E. lia.
    + exact Hr.
Qed.

End ProductFacts.

Lemma numeral_digit_lt k n i d :
  (i < k ^ n)%nat -> In d (numeral k n i) -> (d < k)%nat.
Proof.
  revert i. induction n as [|n IH]; intros i Hi; simpl; [tauto|].
  simpl in Hi.
  assert (Hm : (0 < k ^ n)%nat) by (destruct (Nat.eq_dec (k ^ n)%nat O); nia).
  intros [<-|Hd].
  - apply Nat.Div0.div_lt_upper_bound. lia.
  - apply (IH (i mod k ^ n)%nat); [apply Nat.mod_upper_bound; lia|exact Hd].
Qed.

Lemma length_numeral k n i : length (numeral k n i) = n.
Proof. revert i. induction n; intros; simpl; auto. Qed.

Lemma numeral_value_from k ds acc :
  fold_left (fun a d => (a * k + d)%nat) ds acc =
  (acc * k ^ length ds + numeral_value k ds)%nat.
Proof.
  unfold numeral_value. revert acc.
  induction ds as [|d ds IH]; intros acc; simpl; [lia|].
  rewrite (IH (acc * k + d)%nat), (IH d). nia.
Qed.

(** [numeral] is positional notation: the digits evaluate back to [i]. *)
Lemma numeral_value_numeral k n i :
  (i < k ^ n)%nat -> numeral_value k (numeral k n i) = i.
Proof.
  revert i. induction n as [|n IH]; intros i Hi; simpl in *.
  - unfold numeral_value. simpl. lia.
  - assert (Hm : (0 < k ^ n)%nat) by (destruct (Nat.eq_dec (k ^ n)%nat O); nia).
    unfold numeral_value. simpl. rewrite numeral_value_from, length_numeral.
    rewrite IH by (apply Nat.mod_upper_bound; lia).
    rewrite (Nat.div_mod_eq i (k ^ n)%nat) at 3. lia.
Qed.

(** ** Strings *)

Lemma length_join t : String.length (join t) = length t.
Proof. induction t as [|c t IH]; simpl; congruence. Qed.

Lemma chars_join t : chars (join t) = t.
Proof. apply list_ascii_of_string_of_list_ascii. Qed.

Lemma join_chars s : join (chars s) = s.
Proof. apply string_of_list_ascii_of_string. Qed.

Lemma length_chars s : length (chars s) = String.length s.
Proof. rewrite <- (join_chars s) at 2. symmetry. apply length_join. Qed.

Lemma chars_nil s : chars s = [] -> s = EmptyString.
Proof. destruct s; [reflexivity|discriminate]. Qed.

Lemma is_target_true pw g : is_target pw g = true <-> g = pw.
Proof. apply String.eqb_eq. Qed.

(** ** The loops of [crack] in closed form *)

Lemma true_div_returns a b : ~ (b == 0)%Q -> true_div a b = Returned (a / b)%Q.
Proof.
  intros Hb. unfold true_div. destruct (Qeq_bool b 0) eqn:E; [|reflexivity].
  apply Qeq_bool_iff in E. contradiction.
Qed.

Lemma Qgtb_true a b : Qgtb a b = true <-> (b < a)%Q.
Proof.
  unfold Qgtb. rewrite negb_true_iff. split.
  - intros H. apply Qnot_le_lt. intros Hle. apply Qle_bool_iff in Hle. congruence.
  - intros H. destruct (Qle_bool a b) eqn:E; [|reflexivity].
    apply Qle_bool_iff in E. exfalso. exact (Qlt_not_le _ _ H E).
Qed.

(** The guard makes the rate total. *)
Lemma guarded_rate_returns n elapsed :
  guarded_rate n elapsed = Returned (rate_value n elapsed).
Proof.
  unfold guarded_rate, rate_value. destruct (Qgtb elapsed 0) eqn:E; [|reflexivity].
  apply true_div_returns. apply Qgtb_true in E. intros H. rewrite H in E.
  exact (Qlt_irrefl _ E).
Qed.

Section Loops.

Variable time_time : nat -> Q.

Lemma new_checkpoints_app started v a t n1 n2 :
  new_checkpoints time_time started v a t (n1 + n2) =
  new_checkpoints time_time started v a t n1 ++
  new_checkpoints time_time started v (a + Z.of_nat n1)
    (t + length (new_checkpoints time_time started v a t n1)) n2.
Proof.
  revert a t. induction n1 as [|n1 IH]; intros a t.
  - cbn [new_checkpoints Nat.add app length Z.of_nat].
    rewrite Z.add_0_r, Nat.add_0_r. reflexivity.
  - cbn [new_checkpoints Nat.add].
    rewrite Nat2Z.inj_succ.
    replace (a + Z.succ (Z.of_nat n1)) with (a + 1 + Z.of_nat n1) by lia.
    destruct (v && ((a + 1) mod 100000 =? 0)).
    + rewrite IH. cbn [app length Nat.add]. rewrite Nat.add_succ_r.
      reflexivity.
    + rewrite IH. reflexivity.
Qed.

Lemma after_attempts_nil started self t :
  after_attempts time_time started self t [] = (self, t).
Proof.
  unfold after_attempts. destruct self. simpl.
  rewrite app_nil_r, Z.add_0_r, Nat.add_0_r. reflexivity.
Qed.

Lemma after_attempts_app started self t l1 l2 :
  (let '(s1, t1) := after_attempts time_time started self t l1 in
   after_attempts time_time started s1 t1 l2) =
  after_attempts time_time started self t (l1 ++ l2).
Proof.
  unfold after_attempts. cbn [password max_length charset verbose attempts
    start_time end_time found cracked_password length_attempts charset_hits
    time_checkpoints].
  rewrite length_app, new_checkpoints_app, flat_map_app, fold_left_app.
  rewrite length_app, <- app_assoc, Nat2Z.inj_add.
  rewrite Z.add_assoc, Nat.add_assoc. reflexivity.
Qed.

Lemma attempt_returns started self t guess :
  start_time self = Some started ->
  attempt time_time self t guess =
  Returned (after_attempts time_time started self t [guess]).
Proof.
  intros Hst. destruct self as [pw ml cs v a st en f cp la ch tc].
  cbn in Hst. subst st. unfold attempt, after_attempts.
  cbn [password max_length charset verbose attempts start_time end_time
    found cracked_password length_attempts charset_hits time_checkpoints
    set_attempts set_charset_hits set_time_checkpoints length flat_map
    new_checkpoints Z.of_nat Pos.of_succ_nat].
  rewrite app_nil_r.
  destruct (v && ((a + 1) mod 100000 =? 0)).
  - rewrite guarded_rate_returns. unfold snapshot. cbn [length].
    replace (t + 1)%nat with (S t) by lia. reflexivity.
  - rewrite app_nil_r. cbn [length]. rewrite Nat.add_0_r. reflexivity.
Qed.

Ltac fields :=
  cbn [password max_length charset verbose attempts start_time end_time
    found cracked_password length_attempts charset_hits time_checkpoints
    set_attempts set_charset_hits set_time_checkpoints set_found
    set_cracked_password set_length_attempts set_start_time set_end_time
    mark_found fst snd].

(** The inner loop: the attempts up to the first match, then the flag. *)
Lemma for_guess_returns started self t guess_tuples :
  start_time self = Some started ->
  for_guess time_time self t guess_tuples =
  Returned
    (let '(s, t') :=
       after_attempts time_time started self t
         (take_through (is_target (password self)) (map join guess_tuples)) in
     (if existsb (is_target (password self)) (map join guess_tuples)
      then mark_found (password self) s else s, t')).
Proof.
  revert self t. induction guess_tuples as [|g rest IH]; intros self t Hst.
  - cbn [for_guess map take_through existsb]. rewrite after_attempts_nil.
    reflexivity.
  - cbn [for_guess map take_through existsb].
    rewrite (attempt_returns started) by exact Hst.
    unfold is_target at 1 3.
    destruct (after_attempts time_time started self t [join g])
      as [s1 t1] eqn:E.
    assert (Hpw : password s1 = password self)
      by (apply (f_equal fst) in E; cbn in E; subst s1; reflexivity).
    assert (Hst1 : start_time s1 = Some started)
      by (apply (f_equal fst) in E; cbn in E; subst s1; exact Hst).
    cbn [mbind outcome_bind]. rewrite Hpw.
    destruct (String.eqb (join g) (password self)) eqn:Eg.
    + apply String.eqb_eq in Eg. rewrite E, Eg. reflexivity.
    + rewrite (IH s1 t1 Hst1), Hpw. cbn [orb].
      change (join g :: take_through (is_target (password self)) (map join rest))
        with ([join g] ++ take_through (is_target (password self)) (map join rest)).
      rewrite <- after_attempts_app, E. reflexivity.
Qed.

(** The outer loop. *)
Lemma for_length_returns started self t lengths :
  start_time self = Some started ->
  for_length time_time self t lengths =
  Returned
    (let pw := password self in
     let cs := charset self in
     let '(s, t') :=
       after_attempts time_time started self t
         (guesses_run (found self) pw cs lengths) in
     (set_length_attempts
        (counts_run (found self) pw cs lengths (length_attempts self))
        (if existsb (hit pw cs) (lengths_run (found self) pw cs lengths)
         then mark_found pw s else s), t')).
Proof.
  revert self t. induction lengths as [|n rest IH]; intros self t Hst.
  - unfold guesses_run, counts_run, lengths_run.
    cbn [for_length take_through flat_map fold_left existsb].
    rewrite after_attempts_nil. destruct self; reflexivity.
  - cbn [for_length]. rewrite (for_guess_returns started) by exact Hst.
    fold (candidates (charset self) n).
    fold (guesses_of_length (password self) (charset self) n).
    fold (hit (password self) (charset self) n).
    unfold guesses_run, counts_run, lengths_run.
    cbn [take_through].
    destruct self as [pw ml cs v a st en f cp la ch tc].
    cbn in Hst. subst st. fields.
    assert (Hcount : forall k : Z, a + k - a = k) by (intros; lia).
    destruct f, (hit pw cs n) eqn:Eh; cbn [orb flat_map fold_left existsb];
      rewrite ?Eh; cbn [orb].
    1-3: rewrite app_nil_r; unfold after_attempts; fields;
      cbn [mbind outcome_bind]; fields; rewrite Hcount; reflexivity.
    rewrite <- after_attempts_app.
    unfold after_attempts at 1. fields. cbn [mbind outcome_bind]. fields.
    rewrite IH by reflexivity. fields. unfold guesses_run, counts_run, lengths_run.
    rewrite Hcount. unfold after_attempts. cbn [orb]. fields.
    destruct (existsb (hit pw cs) (take_through (fun n => hit pw cs n) rest));
      fields; reflexivity.
Qed.

Lemma attempt_each_returns started self t guesses :
  start_time self = Some started ->
  attempt_each time_time self t guesses =
  Returned (after_attempts time_time started self t guesses).
Proof.
  revert self t. induction guesses as [|g rest IH]; intros self t Hst.
  - cbn [attempt_each]. rewrite after_attempts_nil. reflexivity.
  - cbn [attempt_each]. rewrite (attempt_returns started) by exact Hst.
    change (g :: rest) with ([g] ++ rest). rewrite <- after_attempts_app.
    destruct (after_attempts time_time started self t [g]) as [s1 t1] eqn:E.
    cbn [mbind outcome_bind]. apply IH.
    apply (f_equal fst) in E. cbn in E. subst s1. exact Hst.
Qed.

(** [crack] never raises, whatever the instance it is called on, and
    leaves the instance as [after_crack] describes. *)
Lemma crack_returns self t :
  crack time_time self t =
  Returned (found (fst (after_crack time_time self t)),
            after_crack time_time self t).
Proof.
  unfold crack, crack_start.
  rewrite (for_length_returns (time_time t)) by reflexivity.
  unfold after_crack, after_attempts. fields. cbn [mbind outcome_bind].
  destruct (existsb (hit (password self) (charset self))
              (lengths_run (found self) (password self) (charset self)
                 (range1 (max_length self)))); reflexivity.
Qed.

End Loops.

(** ** A search started on a fresh instance *)

Lemma hit_length pw cs n : hit pw cs n = true -> String.length pw = n.
Proof.
  unfold hit, candidates. rewrite existsb_exists.
  intros (g & Hin & Hg). apply is_target_true in Hg. subst g.
  apply in_map_iff in Hin as (x & <- & Hx).
  rewrite length_join. exact (product_length_elem _ _ _ Hx).
Qed.

Lemma guesses_run_fresh pw cs lengths :
  guesses_run false pw cs lengths =
  take_through (is_target pw) (flat_map (candidates cs) lengths).
Proof.
  unfold guesses_run, lengths_run. cbn [orb].
  induction lengths as [|n rest IH]; [reflexivity|].
  cbn [take_through flat_map].
  destruct (hit pw cs n) eqn:Eh; cbn [flat_map].
  - rewrite app_nil_r, take_through_app_l by exact Eh. reflexivity.
  - rewrite IH, take_through_app_r by exact Eh. f_equal.
    apply take_through_all. exact Eh.
Qed.

Lemma found_run_fresh pw cs lengths :
  existsb (hit pw cs) (lengths_run false pw cs lengths) =
  existsb (is_target pw) (flat_map (candidates cs) lengths).
Proof.
  unfold lengths_run. cbn [orb].
  induction lengths as [|n rest IH]; [reflexivity|].
  cbn [take_through flat_map existsb]. rewrite existsb_app. fold (hit pw cs n).
  destruct (hit pw cs n) eqn:Eh; cbn [existsb orb]; rewrite ?Eh; auto.
Qed.

Lemma init_returns pw m cs v :
  __init__ pw m cs v = Returned (zeroed pw m (charset_or_default cs) v).
Proof. reflexivity. Qed.

Lemma charset_or_default_not_empty cs : charset_or_default cs <> EmptyString.
Proof. destruct cs as [[|c cs]|]; cbn; discriminate. Qed.

Lemma chars_charset_not_nil cs : chars (charset_or_default cs) <> [].
Proof.
  intros H. apply chars_nil in H. exact (charset_or_default_not_empty cs H).
Qed.

Section FreshRun.

Variable time_time : nat -> Q.

(** A first [crack] on a new instance makes exactly the attempts of
    [tried], in that order. *)
Lemma fresh_run pw m alphabet v t :
  let self := zeroed pw m alphabet v in
  let r :=
    after_attempts time_time (time_time t)
      (set_start_time (Some (time_time t)) self) (S t)
      (tried pw alphabet m) in
  after_crack time_time self t =
  (set_end_time (Some (time_time (snd r)))
     (set_length_attempts (counts_run false pw alphabet (range1 m) ∅)
        (if existsb (is_target pw) (all_candidates alphabet m)
         then mark_found pw (fst r) else fst r)),
   S (snd r)).
Proof.
  unfold after_crack, zeroed, tried, all_candidates.
  cbn [password max_length charset verbose attempts start_time end_time
    found cracked_password length_attempts charset_hits time_checkpoints].
  rewrite guesses_run_fresh, found_run_fresh.
  unfold after_attempts. reflexivity.
Qed.

End FreshRun.

(** Evaluate a closed call in place. *)
Ltac evaluate e :=
  let v := eval vm_compute in e in
  let E := fresh "E" in
  assert (E : e = v) by (vm_compute; reflexivity);
  rewrite E; clear E.

(** ** The claims *)

(** C1 (amended).  For every alphabet and target, [crack] on a new instance
    runs its loop body on the candidates of length 1, then of length 2, ...
    up to [max_length]; the candidates of one length come in base-[k]
    counting order over the alphabet (the [i]-th candidate spells the digits
    of [i], most significant digit leftmost, so that the last position cycles
    fastest); and the run ends with the first candidate equal to the target.
    For alphabet "ab", target "ba" and [max_length] 2 the candidates compared
    are "a", "b", "aa", "ab", "ba", so the search reports [found = true],
    the matched string "ba" and 5 attempts in total (not 4: the match is an
    attempt too). *)
Theorem crack_enumeration_order (time_time : nat -> Q) pw m cs v t :
  let alphabet := charset_or_default cs in
  let k := String.length alphabet in
  (forall n, length (candidates alphabet n) = (k ^ n)%nat) /\
  (forall n i, (i < k ^ n)%nat ->
     candidates alphabet n !! i = Some (spell alphabet (numeral k n i)) /\
     numeral_value k (numeral k n i) = i) /\
  (exists self s t' s1 t1,
     __init__ pw m cs v = Returned self /\
     crack time_time self t = Returned (found s, (s, t')) /\
     (let '(started, t0) := crack_start time_time self t in
      attempt_each time_time started t0 (tried pw alphabet m))
     = Returned (s1, t1) /\
     attempts s = attempts s1 /\
     charset_hits s = charset_hits s1 /\
     time_checkpoints s = time_checkpoints s1 /\
     t' = S t1 /\
     attempts s = Z.of_nat (length (tried pw alphabet m)) /\
     found s = existsb (is_target pw) (all_candidates alphabet m) /\
     cracked_password s = (if found s then Some pw else None)) /\
  (tried "ba" "ab" 2 = ["a"; "b"; "aa"; "ab"; "ba"]%string /\
   exists self s t',
     __init__ "ba" 2 (Some "ab"%string) v = Returned self /\
     crack time_time self t = Returned (true, (s, t')) /\
     cracked_password s = Some "ba"%string /\
     attempts s = 5).
Proof.
  intros alphabet k. split; [|split; [|split]].
  - intros n. unfold candidates. rewrite length_map, length_product.
    unfold k. rewrite length_chars. reflexivity.
  - intros n i Hi. split; [|apply numeral_value_numeral; exact Hi].
    unfold candidates, spell, k in *. rewrite <- length_chars in *.
    rewrite list_lookup_fmap, (product_lookup _ _ _ Ascii.zero) by exact Hi.
    reflexivity.
  - pose proof (crack_returns time_time (zeroed pw m alphabet v) t) as Hc.
    pose proof (attempt_each_returns time_time (time_time t)
                  (set_start_time (Some (time_time t)) (zeroed pw m alphabet v))
                  (S t) (tried pw alphabet m) eq_refl) as Ha.
    rewrite fresh_run in Hc. cbn [fst] in Hc.
    destruct (after_attempts time_time (time_time t)
                (set_start_time (Some (time_time t)) (zeroed pw m alphabet v))
                (S t) (tried pw alphabet m)) as [s1 t1] eqn:E.
    apply (f_equal fst) in E. cbn [fst after_attempts] in E.
    cbn [fst snd] in Hc.
    eexists _, _, _, s1, t1.
    split; [reflexivity|]. split; [exact Hc|]. split; [exact Ha|].
    subst s1.
    destruct (existsb (is_target pw) (all_candidates alphabet m));
      repeat split; reflexivity.
  - split; [reflexivity|].
    exists (zeroed "ba" 2 "ab" v).
    eexists (fst (after_crack time_time (zeroed "ba" 2 "ab" v) t)), _.
    split; [reflexivity|]. split; [|split].
    + rewrite crack_returns. rewrite fresh_run. reflexivity.
    + rewrite fresh_run. reflexivity.
    + rewrite fresh_run. reflexivity.
Qed.

(** The first run of "ab" against "ba" makes 5 attempts, not 4. *)
Lemma crack_ab_ba_attempts_not_4 :
  exists s t',
    run "ba" 2 (Some "ab"%string) true = Returned (true, (s, t')) /\
    cracked_password s = Some "ba"%string /\
    attempts s = 5 /\ attempts s <> 4.
Proof.
  evaluate (run "ba" 2 (Some "ab"%string) true).
  eexists _, _. split; [reflexivity|]. repeat split. discriminate.
Qed.

Lemma crack_enumeration_order_witness :
  (2 < String.length "ab" ^ 2)%nat /\
  candidates "ab" 2 !! 2%nat = Some "ba"%string.
Proof.
  split; [vm_compute; lia|].
  destruct (crack_enumeration_order tick_clock "ba" 2 (Some "ab"%string) true O)
    as (_ & H & _).
  destruct (H 2%nat 2%nat) as [H1 _]; [vm_compute; lia|]. exact H1.
Defined.

(** ** Where a match can be *)

Lemma range1_bounds m n : In n (range1 m) -> (1 <= n)%nat /\ Z.of_nat n <= m.
Proof. unfold range1. rewrite in_seq. lia. Qed.

Lemma range1_nonpos m : m <= 0 -> range1 m = [].
Proof. intros H. unfold range1. replace (Z.to_nat m) with O by lia. reflexivity. Qed.

(** A match has the length of the target, which is then between 1 and
    [max_length]. *)
Lemma found_bounds pw cs m :
  existsb (is_target pw) (all_candidates cs m) = true ->
  (1 <= String.length pw)%nat /\ len pw <= m
  /\ hit pw cs (String.length pw) = true.
Proof.
  unfold all_candidates. rewrite existsb_exists.
  intros (g & Hin & Hg). apply in_flat_map in Hin as (n & Hn & Hgn).
  assert (Hh : hit pw cs n = true)
    by (unfold hit; apply existsb_exists; eauto).
  pose proof (hit_length _ _ _ Hh) as Hl. subst n.
  apply range1_bounds in Hn. unfold len. tauto.
Qed.

Lemma not_found_long pw cs m :
  m < len pw -> existsb (is_target pw) (all_candidates cs m) = false.
Proof.
  intros H. destruct (existsb _ _) eqn:E; [|reflexivity].
  apply found_bounds in E. lia.
Qed.

Lemma not_found_empty cs m :
  existsb (is_target EmptyString) (all_candidates cs m) = false.
Proof.
  destruct (existsb _ _) eqn:E; [|reflexivity].
  apply found_bounds in E. cbn in E. lia.
Qed.

(** What any [crack], first or not, does to the counter and the stamps. *)
Lemma after_crack_attempts time_time self t :
  attempts (fst (after_crack time_time self t)) =
  attempts self
  + Z.of_nat (length (guesses_run (found self) (password self) (charset self)
                        (range1 (max_length self)))).
Proof.
  unfold after_crack, after_attempts.
  destruct (existsb _ _); reflexivity.
Qed.

Lemma after_crack_start_time time_time self t :
  start_time (fst (after_crack time_time self t)) = Some (time_time t).
Proof.
  unfold after_crack, after_attempts.
  destruct (existsb _ _); reflexivity.
Qed.

(** C3 (amended).  The constructor validates nothing and never raises: for
    every target, maximum length, alphabet and verbosity it returns an
    instance that stores the target and the maximum length as given and the
    alphabet with the default put in place of an empty one, with no attempt
    made.  An error is not raised later either: [crack] returns, with zero
    attempts and [found = false] for a non-positive maximum length, and with
    [found = false] for the empty target. *)
Theorem init_never_raises pw m cs v :
  exists self,
    __init__ pw m cs v = Returned self /\
    password self = pw /\ max_length self = m /\
    charset self = charset_or_default cs /\ verbose self = v /\
    attempts self = 0 /\ found self = false /\
    forall time_time t, exists s t',
      crack time_time self t = Returned (found s, (s, t')) /\
      (m <= 0 -> attempts s = 0 /\ found s = false) /\
      (pw = EmptyString -> found s = false).
Proof.
  exists (zeroed pw m (charset_or_default cs) v). repeat split.
  intros time_time t.
  pose proof (crack_returns time_time (zeroed pw m (charset_or_default cs) v) t)
    as Hc.
  rewrite fresh_run in Hc. cbn [fst] in Hc.
  eexists _, _. split; [exact Hc|]. split.
  - intros Hm. unfold tried, all_candidates. rewrite (range1_nonpos m Hm).
    split; reflexivity.
  - intros ->. rewrite not_found_empty. reflexivity.
Qed.

(** Empty alphabet, zero maximum length and empty target: an instance all
    the same. *)
Lemma init_bad_config_returns :
  __init__ EmptyString 0 (Some EmptyString) true
  = Returned (zeroed EmptyString 0 default_charset true)
  /\ forall e, __init__ EmptyString 0 (Some EmptyString) true <> Raised e.
Proof. split; [reflexivity|]. intros e. discriminate. Qed.

Lemma init_never_raises_witness :
  exists s t',
    crack tick_clock (zeroed EmptyString 0 default_charset true) O
    = Returned (found s, (s, t')) /\ attempts s = 0 /\ found s = false.
Proof.
  destruct (init_never_raises EmptyString 0 (Some EmptyString) true)
    as (self & Hi & _ & _ & _ & _ & _ & _ & Hc).
  injection Hi as <-.
  destruct (Hc tick_clock O) as (s & t' & Hr & Hm & He).
  exists s, t'. split; [exact Hr|]. apply Hm. lia.
Defined.

(** C10.  When the [charset] argument is [None] or the empty string, the
    constructor silently puts the default alphabet in its place: the ASCII
    letters, digits and punctuation, 94 symbols.  [crack] then returns
    without an error and enumerates over that alphabet: it compares the
    candidates of [tried] over the default alphabet, of which there are
    [94 ^ n] of each length [n], none of these lists being empty. *)
Theorem init_empty_charset_default (time_time : nat -> Q) pw m v t :
  default_charset = (ascii_letters +:+ digits +:+ punctuation)%string /\
  String.length default_charset = 94%nat /\
  Forall
    (fun cs =>
       exists self s t',
         __init__ pw m cs v = Returned self /\
         charset self = default_charset /\
         crack time_time self t = Returned (found s, (s, t')) /\
         charset s = default_charset /\
         attempts s = Z.of_nat (length (tried pw default_charset m)) /\
         found s = existsb (is_target pw) (all_candidates default_charset m))
    [None; Some EmptyString] /\
  (forall n, length (candidates default_charset n) = (94 ^ n)%nat
             /\ candidates default_charset n <> []).
Proof.
  split; [reflexivity|]. split; [reflexivity|]. split.
  - assert (H : forall cs, charset_or_default cs = default_charset ->
       exists self s t',
         __init__ pw m cs v = Returned self /\
         charset self = default_charset /\
         crack time_time self t = Returned (found s, (s, t')) /\
         charset s = default_charset /\
         attempts s = Z.of_nat (length (tried pw default_charset m)) /\
         found s = existsb (is_target pw) (all_candidates default_charset m)).
    { intros cs Hcs.
      pose proof (crack_returns time_time (zeroed pw m default_charset v) t)
        as Hc.
      rewrite fresh_run in Hc. cbn [fst] in Hc.
      exists (zeroed pw m default_charset v). eexists _, _.
      split; [rewrite init_returns, Hcs; reflexivity|].
      split; [reflexivity|]. split; [exact Hc|].
      destruct (existsb (is_target pw) (all_candidates default_charset m));
        repeat split; reflexivity. }
    repeat constructor; apply H; reflexivity.
  - intros n.
    assert (Hl : length (candidates default_charset n) = (94 ^ n)%nat).
    { unfold candidates. rewrite length_map, length_product. reflexivity. }
    split; [exact Hl|]. intros E. rewrite E in Hl. cbn [length] in Hl.
    symmetry in Hl. apply Nat.pow_eq_0_iff in Hl. lia.
Qed.

Lemma after_crack_found time_time self t :
  found (fst (after_crack time_time self t)) =
  found self
  || existsb (hit (password self) (charset self))
       (lengths_run (found self) (password self) (charset self)
          (range1 (max_length self))).
Proof.
  unfold after_crack, after_attempts.
  destruct (existsb _ _), (found self) eqn:Ef; cbn; rewrite ?Ef; reflexivity.
Qed.

Lemma after_crack_checkpoints time_time self t :
  time_checkpoints (fst (after_crack time_time self t)) =
  time_checkpoints self ++
  new_checkpoints time_time (time_time t) (verbose self) (attempts self) (S t)
    (length (guesses_run (found self) (password self) (charset self)
               (range1 (max_length self)))).
Proof.
  unfold after_crack, after_attempts.
  destruct (existsb _ _); reflexivity.
Qed.

(** C5 (amended).  Every invocation of [crack] records a fresh start
    timestamp, and that is all it does before enumeration begins: the
    counters (total attempts, per-length counts, per-character hits,
    checkpoints, found flag, matched string) are left as they are.  The
    constructor is what sets them to zero, so the first [crack] on a new
    instance starts from zeroed state, while a second [crack] on the same
    instance goes on from what the first one left: attempts are added to
    the old total, checkpoints are appended to the old ones, and a found
    flag that is set stays set. *)
Theorem crack_start_keeps_counters (time_time : nat -> Q) self t :
  (let started := fst (crack_start time_time self t) in
   start_time started = Some (time_time t) /\
   attempts started = attempts self /\
   length_attempts started = length_attempts self /\
   charset_hits started = charset_hits self /\
   time_checkpoints started = time_checkpoints self /\
   found started = found self /\
   cracked_password started = cracked_password self) /\
  (exists s t',
     crack time_time self t = Returned (found s, (s, t')) /\
     start_time s = Some (time_time t) /\
     attempts self <= attempts s /\
     (exists added, time_checkpoints s = time_checkpoints self ++ added) /\
     found s = found self || found s) /\
  (forall pw m cs v, exists new,
     __init__ pw m cs v = Returned new /\
     attempts new = 0 /\ length_attempts new = ∅ /\ charset_hits new = ∅ /\
     time_checkpoints new = [] /\ found new = false /\
     cracked_password new = None).
Proof.
  split; [repeat split|]. split.
  - destruct (after_crack time_time self t) as [s t'] eqn:E.
    exists s, t'.
    pose proof (crack_returns time_time self t) as Hc.
    pose proof (after_crack_attempts time_time self t) as Ha.
    pose proof (after_crack_start_time time_time self t) as Hs.
    pose proof (after_crack_found time_time self t) as Hf.
    pose proof (after_crack_checkpoints time_time self t) as Hk.
    rewrite E in *. cbn [fst] in *.
    split; [exact Hc|]. split; [exact Hs|]. split; [lia|].
    split; [eexists; exact Hk|].
    rewrite Hf. destruct (found self); reflexivity.
  - intros pw m cs v. exists (zeroed pw m (charset_or_default cs) v).
    repeat split.
Qed.

(** A second [crack] on the same instance starts from the totals of the
    first: 2 attempts before, 4 after, where a new instance would give 2. *)
Lemma second_crack_not_reset :
  match run "b" 1 (Some "ab"%string) false with
  | Returned (found1, (s1, t1)) =>
      found1 = true /\ attempts s1 = 2 /\
      attempts (fst (crack_start tick_clock s1 t1)) = 2 /\
      attempts (fst (crack_start tick_clock s1 t1)) <> 0 /\
      match crack tick_clock s1 t1 with
      | Returned (found2, (s2, _)) =>
          found2 = true /\ attempts s2 = 4 /\
          length_attempts s2 = {[ 1%nat := 2 ]}
      | Raised _ => False
      end
  | Raised _ => False
  end.
Proof. vm_compute. repeat split. discriminate. Qed.

(** ** Counting candidates *)

Lemma length_candidates cs n :
  Z.of_nat (length (candidates cs n)) = len cs ^ Z.of_nat n.
Proof.
  unfold candidates, len. rewrite length_map, length_product, length_chars.
  apply Nat2Z.inj_pow.
Qed.

Lemma length_flat_candidates cs lengths :
  Z.of_nat (length (flat_map (candidates cs) lengths)) =
  fold_right Z.add 0 (map (fun i => len cs ^ Z.of_nat i) lengths).
Proof.
  induction lengths as [|n rest IH]; [reflexivity|].
  cbn [flat_map map fold_right].
  rewrite length_app, Nat2Z.inj_add, IH, length_candidates. reflexivity.
Qed.

Lemma length_all_candidates cs m :
  Z.of_nat (length (all_candidates cs m)) = sum_powers (len cs) m.
Proof. apply length_flat_candidates. Qed.

(** C7.  When the target is longer than [max_length], [crack] on a new
    instance reports [found = false] after attempting all the candidates of
    the lengths 1 to [max_length] and no other: the total is the sum of
    [|A| ^ i] for [i] from 1 to [max_length].  With [max_length = 0] the
    search is over at once, with zero attempts. *)
Theorem crack_target_too_long (time_time : nat -> Q) pw m cs v t :
  (m < len pw ->
   exists self s t',
     __init__ pw m cs v = Returned self /\
     crack time_time self t = Returned (false, (s, t')) /\
     found s = false /\ cracked_password s = None /\
     tried pw (charset self) m = all_candidates (charset self) m /\
     attempts s = sum_powers (len (charset self)) m) /\
  (exists self s t',
     __init__ pw 0 cs v = Returned self /\
     crack time_time self t = Returned (false, (s, t')) /\
     found s = false /\ attempts s = 0 /\ length_attempts s = ∅).
Proof.
  split.
  - intros Hlong.
    pose proof (crack_returns time_time (zeroed pw m (charset_or_default cs) v) t)
      as Hc.
    rewrite fresh_run in Hc. cbn [fst] in Hc.
    pose proof (not_found_long pw (charset_or_default cs) m Hlong) as Hn.
    rewrite Hn in Hc.
    exists (zeroed pw m (charset_or_default cs) v). eexists _, _.
    split; [reflexivity|]. split; [exact Hc|].
    assert (Ht : tried pw (charset_or_default cs) m
                 = all_candidates (charset_or_default cs) m)
      by (apply take_through_all; exact Hn).
    repeat split; try exact Ht.
    cbn. rewrite Ht. apply length_all_candidates.
  - pose proof (crack_returns time_time (zeroed pw 0 (charset_or_default cs) v) t)
      as Hc.
    rewrite fresh_run in Hc. cbn [fst] in Hc.
    exists (zeroed pw 0 (charset_or_default cs) v). eexists _, _.
    split; [reflexivity|]. split; [exact Hc|]. repeat split.
Qed.

Lemma crack_target_too_long_witness :
  exists s t',
    crack tick_clock (zeroed "abc" 2 "ab" true) O = Returned (false, (s, t')) /\
    attempts s = 6.
Proof.
  destruct (crack_target_too_long tick_clock "abc" 2 (Some "ab"%string) true O)
    as [H _].
  destruct H as (self & s & t' & Hi & Hc & _ & _ & _ & Ha);
    [vm_compute; reflexivity|].
  injection Hi as <-. exists s, t'. split; [exact Hc|]. exact Ha.
Defined.

(** ** Character counts *)

Lemma count_chars_lookup (l : list ascii) (hits : gmap ascii Z) (c : ascii) :
  default 0 (fold_left count_char l hits !! c) =
  default 0 (hits !! c) + Z.of_nat (count_occ Ascii.ascii_dec l c).
Proof.
  revert hits. induction l as [|x l IH]; intros hits.
  - cbn [fold_left count_occ Z.of_nat]. symmetry. apply Z.add_0_r.
  - cbn [fold_left count_occ]. rewrite IH. unfold count_char.
    destruct (Ascii.ascii_dec x c) as [->|Hne].
    + rewrite lookup_insert_eq. cbn [default id]. lia.
    + rewrite lookup_insert_ne by exact Hne. reflexivity.
Qed.

Lemma take_through_ends {A : Type} (stop : A -> bool) (l : list A) :
  existsb stop l = true ->
  exists before x, take_through stop l = before ++ [x] /\ stop x = true.
Proof.
  induction l as [|y l IH]; cbn [existsb take_through]; [discriminate|].
  destruct (stop y) eqn:E.
  - intros _. exists [], y. auto.
  - cbn [orb]. intros H. destruct (IH H) as (before & x & Hb & Hx).
    exists (y :: before), x. rewrite Hb. auto.
Qed.

(** C8.  After a [crack] on a new instance, the hit count of every character
    [c] is the number of occurrences of [c] over all the candidates that were
    attempted; and when the search has found the target, the target is the
    last of these candidates, so its own characters are counted too. *)
Theorem charset_hits_count_every_candidate (time_time : nat -> Q) pw m cs v t :
  exists self s t',
    __init__ pw m cs v = Returned self /\
    crack time_time self t = Returned (found s, (s, t')) /\
    (forall c,
       default 0 (charset_hits s !! c)
       = occurrences c (tried pw (charset self) m)) /\
    (found s = true ->
     exists before, tried pw (charset self) m = before ++ [pw]).
Proof.
  pose proof (crack_returns time_time (zeroed pw m (charset_or_default cs) v) t)
    as Hc.
  rewrite fresh_run in Hc. cbn [fst] in Hc.
  exists (zeroed pw m (charset_or_default cs) v). eexists _, _.
  split; [reflexivity|]. split; [exact Hc|]. split.
  - intros c. unfold occurrences.
    destruct (existsb _ _); cbn; rewrite count_chars_lookup;
      rewrite lookup_empty; reflexivity.
  - cbn [charset zeroed].
    destruct (existsb (is_target pw) (all_candidates (charset_or_default cs) m))
      eqn:E; [|discriminate].
    intros _. destruct (take_through_ends _ _ E) as (before & x & Hb & Hx).
    apply is_target_true in Hx. subst x. exists before. exact Hb.
Qed.

Lemma charset_hits_count_every_candidate_witness :
  exists before, tried "ba" "ab" 2 = before ++ ["ba"%string].
Proof.
  destruct (charset_hits_count_every_candidate tick_clock "ba" 2
              (Some "ab"%string) true O)
    as (self & s & t' & Hi & Hc & _ & Hm).
  injection Hi as <-.
  rewrite crack_returns in Hc. injection Hc as Hf Hs _.
  apply Hm. rewrite <- Hs. vm_compute. reflexivity.
Defined.

(** ** Per-length counts *)

Section Counts.
Variable f : nat -> Z.

Abbreviation record := (fun (d : gmap nat Z) (n : nat) => <[n := f n]> d).

Lemma counts_lookup_in (l : list nat) (d : gmap nat Z) n :
  In n l -> fold_left record l d !! n = Some (f n).
Proof.
  revert d. induction l as [|x l IH]; intros d; [intros []|].
  cbn [fold_left]. destruct (in_dec Nat.eq_dec n l) as [Hin|Hnin].
  - intros _. apply IH. exact Hin.
  - intros [->|Hin]; [|contradiction]. clear IH.
    assert (H : forall d', d' !! n = Some (f n) ->
                           fold_left record l d' !! n = Some (f n)).
    { induction l as [|y l IHl]; intros d' Hd; [exact Hd|].
      cbn [fold_left]. apply IHl.
      - intros Hin. apply Hnin. right. exact Hin.
      - cbn beta. rewrite lookup_insert_ne; [exact Hd|].
        intros ->. apply Hnin. left. reflexivity. }
    apply H. cbn beta. apply lookup_insert_eq.
Qed.

Lemma counts_lookup_out (l : list nat) (d : gmap nat Z) n :
  ~ In n l -> fold_left record l d !! n = d !! n.
Proof.
  revert d. induction l as [|x l IH]; intros d Hn; [reflexivity|].
  cbn [fold_left]. rewrite IH by (intros H; apply Hn; right; exact H).
  cbn beta. apply lookup_insert_ne. intros ->. apply Hn. left. reflexivity.
Qed.

Lemma sum_values_insert (d : gmap nat Z) n c :
  d !! n = None -> sum_values (<[n := c]> d) = c + sum_values d.
Proof.
  intros Hn. unfold sum_values.
  apply (map_fold_insert_L (fun _ count acc => count + acc)); [|exact Hn].
  intros. lia.
Qed.

Lemma sum_values_counts (l : list nat) (d : gmap nat Z) :
  List.NoDup l -> (forall n, In n l -> d !! n = None) ->
  sum_values (fold_left record l d)
  = sum_values d + fold_right Z.add 0 (map f l).
Proof.
  revert d. induction l as [|x l IH]; intros d Hnd Hfresh.
  - cbn. lia.
  - apply List.NoDup_cons_iff in Hnd as [Hx Hnd].
    cbn [fold_left map fold_right]. rewrite IH.
    + cbn beta. rewrite sum_values_insert by (apply Hfresh; left; auto).
      lia.
    + exact Hnd.
    + intros n Hn. cbn beta. rewrite lookup_insert_ne.
      * apply Hfresh. right. exact Hn.
      * intros ->. contradiction.
Qed.

End Counts.

Lemma NoDup_take_through {A : Type} (stop : A -> bool) (l : list A) :
  List.NoDup l -> List.NoDup (take_through stop l).
Proof.
  induction l as [|x l IH]; intros Hnd; [constructor|].
  apply List.NoDup_cons_iff in Hnd as [Hx Hnd].
  cbn [take_through]. destruct (stop x).
  - constructor; [intros []|constructor].
  - constructor; [|auto]. intros Hin. apply Hx.
    exact (take_through_incl _ _ _ Hin).
Qed.

Lemma length_guesses_run found0 pw cs lengths :
  Z.of_nat (length (guesses_run found0 pw cs lengths)) =
  fold_right Z.add 0
    (map (fun n => Z.of_nat (length (guesses_of_length pw cs n)))
       (lengths_run found0 pw cs lengths)).
Proof.
  unfold guesses_run.
  induction (lengths_run found0 pw cs lengths) as [|n rest IH]; [reflexivity|].
  cbn [flat_map map fold_right]. rewrite length_app, Nat2Z.inj_add, IH.
  reflexivity.
Qed.




(** ** Checkpoints *)

Section Checkpoints.

Variable time_time : nat -> Q.

Lemma new_checkpoints_quiet started a t n :
  new_checkpoints time_time started false a t n = [].
Proof.
  revert a t. induction n as [|n IH]; intros a t; [reflexivity|].
  cbn [new_checkpoints andb]. apply IH.
Qed.

Lemma new_checkpoints_attempts started a t n :
  map cp_attempts (new_checkpoints time_time started true a t n) =
  List.filter is_multiple_of_interval
    (map (fun i => a + Z.of_nat i) (seq 1 n)).
Proof.
  revert a t. induction n as [|n IH]; intros a t; [reflexivity|].
  cbn [new_checkpoints andb seq map]. rewrite <- seq_shift, map_map.
  assert (Hs : map (fun i => a + Z.of_nat (S i)) (seq 1 n)
               = map (fun i => a + 1 + Z.of_nat i) (seq 1 n))
    by (apply map_ext; intros; lia).
  rewrite Hs. cbn [List.filter]. change (Z.of_nat 1) with 1.
  unfold is_multiple_of_interval at 1.
  destruct ((a + 1) mod 100000 =? 0) eqn:E.
  - cbn [map cp_attempts snapshot]. rewrite IH. reflexivity.
  - apply IH.
Qed.

Lemma new_checkpoints_snapshots started v a t n :
  Forall
    (fun cp => exists i,
       cp_time cp = (time_time i - started)%Q /\
       cp_rate cp = rate_value (cp_attempts cp) (cp_time cp) /\
       cp_attempts cp mod 100000 = 0)
    (new_checkpoints time_time started v a t n).
Proof.
  revert a t. induction n as [|n IH]; intros a t; [constructor|].
  cbn [new_checkpoints].
  destruct (v && ((a + 1) mod 100000 =? 0)) eqn:E; [|apply IH].
  constructor; [|apply IH].
  exists t. repeat split. cbn [cp_attempts snapshot].
  apply andb_true_iff in E as [_ E]. apply Z.eqb_eq in E. exact E.
Qed.

End Checkpoints.

(** C4 (amended).  On every run, a checkpoint snapshot (attempts, elapsed,
    rate) is appended to the checkpoint sequence whenever the verbosity flag
    is set and the total attempts counter is an exact multiple of 100000, the
    elapsed time being a clock reading less the start timestamp and the rate
    the attempts over the elapsed time, or 0 when the elapsed time is not
    positive.  With the verbosity flag off no snapshot is produced at all. *)
Theorem checkpoints_when_verbose (time_time : nat -> Q) self t :
  exists s t' added,
    crack time_time self t = Returned (found s, (s, t')) /\
    time_checkpoints s = time_checkpoints self ++ added /\
    map cp_attempts added =
      (if verbose self
       then List.filter is_multiple_of_interval
              (counter_values (attempts self) (attempts s))
       else []) /\
    Forall
      (fun cp => exists i,
         cp_time cp = (time_time i - time_time t)%Q /\
         cp_rate cp =
           (if Qgtb (cp_time cp) 0
            then (inject_Z (cp_attempts cp) / cp_time cp)%Q else 0%Q))
      added.
Proof.
  destruct (after_crack time_time self t) as [s t'] eqn:E.
  pose proof (crack_returns time_time self t) as Hc.
  pose proof (after_crack_attempts time_time self t) as Ha.
  pose proof (after_crack_checkpoints time_time self t) as Hk.
  rewrite E in *. cbn [fst] in *.
  set (n := length (guesses_run (found self) (password self) (charset self)
                      (range1 (max_length self)))) in *.
  exists s, t'. eexists. split; [exact Hc|]. split; [exact Hk|]. split.
  - unfold counter_values. replace (Z.to_nat (attempts s - attempts self))
      with n by lia.
    destruct (verbose self).
    + apply new_checkpoints_attempts.
    + rewrite new_checkpoints_quiet. reflexivity.
  - eapply List.Forall_impl; [|apply new_checkpoints_snapshots].
    cbn beta. intros cp (i & Ht & Hr & _). exists i. split; [exact Ht|].
    exact Hr.
Qed.

(** With the verbosity flag off the counter passes 100000 and no checkpoint
    is recorded; with the flag on there is one. *)
Lemma checkpoints_need_verbose :
  match run "88889" 5 (Some digits) false, run "88889" 5 (Some digits) true with
  | Returned (_, (quiet, _)), Returned (_, (loud, _)) =>
      attempts quiet = 100000 /\ attempts quiet mod 100000 = 0 /\
      time_checkpoints quiet = [] /\
      map cp_attempts (time_checkpoints loud) = [100000]
  | _, _ => False
  end.
Proof. vm_compute. repeat split. Qed.

(** ** [generate_report] *)

(** ** Rounding and percentages *)

Lemma inject_Z_pos z : 0 < z -> (0 < inject_Z z)%Q.
Proof. intros H. unfold Qlt. cbn. lia. Qed.

Lemma round_half_even_bounds (y : Q) (a b : Z) :
  (inject_Z a <= y)%Q -> (y <= inject_Z b)%Q ->
  a <= round_half_even y <= b.
Proof.
  intros Ha Hb. unfold round_half_even.
  pose proof (Qfloor_resp_le _ _ Ha) as Hfa. rewrite Qfloor_Z in Hfa.
  pose proof (Qfloor_resp_le _ _ Hb) as Hfb. rewrite Qfloor_Z in Hfb.
  pose proof (Qfloor_le y) as Hfy.
  set (f := Qfloor y) in *.
  assert (Hstep : (1 # 2 <= y - inject_Z f)%Q -> f + 1 <= b).
  { intros Hhalf. destruct (Z.eq_dec f b) as [->|Hne]; [|lia].
    exfalso. lra. }
  destruct (Qcompare_spec (y - inject_Z f) (1 # 2)) as [He|Hl|Hg].
  - assert (f + 1 <= b) by (apply Hstep; rewrite He; apply Qle_refl).
    destruct (Z.even f); lia.
  - lia.
  - assert (f + 1 <= b) by (apply Hstep; apply Qlt_le_weak; exact Hg). lia.
Qed.

Lemma round_percentage_bounds (x : Q) (n : nat) :
  (0 <= x)%Q -> (x <= 100)%Q ->
  (0 <= round_decimal x n)%Q /\ (round_decimal x n <= 100)%Q.
Proof.
  intros H0 H100. unfold round_decimal.
  set (p := 10 ^ Z.of_nat n).
  assert (Hp : 0 < p) by (apply Z.pow_pos_nonneg; lia).
  assert (HpQ : (0 < inject_Z p)%Q) by (apply inject_Z_pos; exact Hp).
  destruct (round_half_even_bounds (x * inject_Z p) 0 (100 * p)) as [Hlo Hhi].
  - apply Qmult_le_0_compat; [exact H0|apply Qlt_le_weak; exact HpQ].
  - rewrite inject_Z_mult. apply Qmult_le_compat_r; [exact H100|].
    apply Qlt_le_weak; exact HpQ.
  - split.
    + apply Qle_shift_div_l; [exact HpQ|]. rewrite Qmult_0_l.
      change 0%Q with (inject_Z 0). rewrite <- Zle_Qle. exact Hlo.
    + apply Qle_shift_div_r; [exact HpQ|].
      change (100%Q) with (inject_Z 100). rewrite <- inject_Z_mult.
      rewrite <- Zle_Qle. exact Hhi.
Qed.

Lemma percentage_bounds (a total : Z) :
  0 < a -> a <= total ->
  let x := (inject_Z a / inject_Z total * 100)%Q in
  (0 < x)%Q /\ (x <= 100)%Q /\ ((x == 100)%Q <-> a = total).
Proof.
  intros Ha Hle x.
  assert (Ht : (0 < inject_Z total)%Q) by (apply inject_Z_pos; lia).
  assert (HaQ : (0 < inject_Z a)%Q) by (apply inject_Z_pos; lia).
  assert (HleQ : (inject_Z a <= inject_Z total)%Q) by (rewrite <- Zle_Qle; lia).
  assert (Hr : (0 < inject_Z a / inject_Z total)%Q).
  { apply Qlt_shift_div_l; [exact Ht|]. rewrite Qmult_0_l. exact HaQ. }
  assert (Hr1 : (inject_Z a / inject_Z total <= 1)%Q).
  { apply Qle_shift_div_r; [exact Ht|]. rewrite Qmult_1_l. exact HleQ. }
  unfold x. split; [lra|]. split; [lra|]. split.
  - intros He.
    assert (H1 : (inject_Z a / inject_Z total == 1)%Q) by lra.
    assert (H2 : (inject_Z a == inject_Z total)%Q).
    { rewrite <- (Qmult_div_r (inject_Z a) (inject_Z total)) by lra.
      rewrite H1. apply Qmult_1_r. }
    apply inject_Z_injective. exact H2.
  - intros ->. 
    assert (H1 : (inject_Z total / inject_Z total == 1)%Q).
    { unfold Qdiv. apply Qmult_inv_r. lra. }
    rewrite H1. reflexivity.
Qed.

Lemma round_half_even_close (y : Q) :
  (y - (1 # 2) <= inject_Z (round_half_even y))%Q /\
  (inject_Z (round_half_even y) <= y + (1 # 2))%Q.
Proof.
  unfold round_half_even.
  pose proof (Qfloor_le y) as Hlo. pose proof (Qlt_floor y) as Hhi.
  rewrite inject_Z_plus in Hhi. change (inject_Z 1) with 1%Q in Hhi.
  set (f := Qfloor y) in *.
  destruct (Qcompare_spec (y - inject_Z f) (1 # 2)) as [He|Hl|Hg].
  - destruct (Z.even f); rewrite ?inject_Z_plus;
      change (inject_Z 1) with 1%Q; split; lra.
  - split; lra.
  - rewrite inject_Z_plus. change (inject_Z 1) with 1%Q. split; lra.
Qed.

(** Rounding to [n] decimal places moves a value by at most half a unit of
    the last place. *)
Lemma round_close (x : Q) (n : nat) :
  let half_unit := (1 / inject_Z (2 * 10 ^ Z.of_nat n))%Q in
  (x - half_unit <= round_decimal x n)%Q /\
  (round_decimal x n <= x + half_unit)%Q.
Proof.
  intros half_unit. unfold round_decimal, half_unit.
  set (p := 10 ^ Z.of_nat n).
  assert (Hp : 0 < p) by (apply Z.pow_pos_nonneg; lia).
  assert (HpQ : (0 < inject_Z p)%Q) by (apply inject_Z_pos; exact Hp).
  destruct (round_half_even_close (x * inject_Z p)) as [Hlo Hhi].
  set (z := inject_Z (round_half_even (x * inject_Z p))) in *.
  rewrite inject_Z_mult. change (inject_Z 2) with 2%Q.
  assert (Hinv : (0 < / inject_Z p)%Q) by (apply Qinv_lt_0_compat; exact HpQ).
  assert (E1 : ((x * inject_Z p - (1 # 2)) / inject_Z p
                == x - 1 / (2 * inject_Z p))%Q) by (field; lra).
  assert (E2 : ((x * inject_Z p + (1 # 2)) / inject_Z p
                == x + 1 / (2 * inject_Z p))%Q) by (field; lra).
  split.
  - rewrite <- E1. unfold Qdiv. apply Qmult_le_compat_r; [exact Hlo|].
    apply Qlt_le_weak. exact Hinv.
  - rewrite <- E2. unfold Qdiv. apply Qmult_le_compat_r; [exact Hhi|].
    apply Qlt_le_weak. exact Hinv.
Qed.

(** ** Binary floating point *)

Lemma pow2_pos e : (0 < 2 ^ e)%Q.
Proof. apply Qpower_0_lt. reflexivity. Qed.

Lemma pow2_inject e : 0 <= e -> (2 ^ e == inject_Z (2 ^ e))%Q.
Proof. intros He. rewrite Zpower_Qpower by exact He. reflexivity. Qed.

Lemma pow2_le e e' : e <= e' -> (2 ^ e <= 2 ^ e')%Q.
Proof. intros H. apply Qpower_le_compat_l; [exact H|discriminate]. Qed.

Lemma pow2_split e e' : (2 ^ e' == 2 ^ (e' - e) * 2 ^ e)%Q.
Proof.
  rewrite <- Qpower_plus by discriminate. replace (e' - e + e) with e' by lia.
  reflexivity.
Qed.

(** [binade] finds the power of two at or below a positive rational. *)
Lemma binade_spec (x : Q) :
  (0 < x)%Q -> (2 ^ binade x <= x)%Q /\ (x < 2 ^ (binade x + 1))%Q.
Proof.
  intros Hx. unfold binade.
  destruct x as [p q]. cbn [Qnum Qden].
  assert (Hp : 0 < p) by (unfold Qlt in Hx; cbn in Hx; lia).
  destruct (Z.log2_spec p Hp) as [Hp1 Hp2].
  destruct (Z.log2_spec (Zpos q) (Pos2Z.is_pos q)) as [Hq1 Hq2].
  set (lp := Z.log2 p) in *. set (lq := Z.log2 (Zpos q)) in *.
  assert (Hlp : 0 <= lp) by apply Z.log2_nonneg.
  assert (Hlq : 0 <= lq) by apply Z.log2_nonneg.
  assert (HA : 0 < 2 ^ lp) by (apply Z.pow_pos_nonneg; lia).
  assert (HB : 0 < 2 ^ lq) by (apply Z.pow_pos_nonneg; lia).
  assert (HA' : 2 ^ Z.succ lp = 2 * 2 ^ lp) by (apply Z.pow_succ_r; lia).
  assert (HB' : 2 ^ Z.succ lq = 2 * 2 ^ lq) by (apply Z.pow_succ_r; lia).
  assert (Hd : forall c, (2 ^ (lp - lq + c)
                          == inject_Z (2 ^ lp) * 2 ^ c / inject_Z (2 ^ lq))%Q).
  { intros c. replace (lp - lq + c) with (lp + c - lq) by lia.
    rewrite Qpower_minus, Qpower_plus by discriminate.
    rewrite (pow2_inject lp), (pow2_inject lq) by lia. reflexivity. }
  assert (HBQ : (0 < inject_Z (2 ^ lq))%Q) by (apply inject_Z_pos; exact HB).
  destruct (Qle_bool (2 ^ (lp - lq)) (p # q)) eqn:E.
  - apply Qle_bool_iff in E. split; [exact E|].
    rewrite (Hd 1). apply Qlt_shift_div_l; [exact HBQ|].
    change (2 ^ 1)%Q with 2%Q. unfold Qlt, Qmult, inject_Z; cbn [Qnum Qden]. nia.
  - assert (E' : (p # q < 2 ^ (lp - lq))%Q).
    { apply Qnot_le_lt. intros H. apply Qle_bool_iff in H. congruence. }
    split.
    + replace (lp - lq - 1) with (lp - lq + -1) by lia. rewrite (Hd (-1)).
      apply Qle_shift_div_r; [exact HBQ|].
      change (2 ^ (-1))%Q with (1 # 2)%Q.
      unfold Qle, Qmult, inject_Z; cbn [Qnum Qden]. nia.
    + replace (lp - lq - 1 + 1) with (lp - lq) by lia. exact E'.
Qed.

Lemma binary64_comp (x y : Q) : (x == y)%Q -> binary64 x = binary64 y.
Proof. intros H. unfold binary64. rewrite (Qred_complete _ _ H). reflexivity. Qed.

Lemma Qabs_of_pos (x : Q) : (0 < x)%Q -> Qabs x = x.
Proof.
  destruct x as [p q]. unfold Qlt. cbn. intros H. f_equal. lia.
Qed.

(** A value between 0 and a double [n * 2 ^ j] is rounded to a double in the
    same range, at most half of [2 ^ j] away. *)
Lemma binary64_bounds (x : Q) (n j : Z) :
  (0 <= x)%Q -> (x <= inject_Z n * 2 ^ j)%Q ->
  n < 2 ^ 53 -> -1074 <= j <= 971 ->
  exists y,
    binary64 x = Finite y /\ (0 <= y)%Q /\ (y <= inject_Z n * 2 ^ j)%Q /\
    (x - (1 # 2) * 2 ^ j <= y)%Q /\ (y <= x + (1 # 2) * 2 ^ j)%Q.
Proof.
  intros H0 Hb Hn Hj. unfold binary64.
  pose proof (Qred_correct x) as Hx. set (x' := Qred x) in *.
  pose proof (pow2_pos j) as Hpj.
  destruct (Qeq_bool x' 0) eqn:E.
  - apply Qeq_bool_iff in E. exists 0%Q. split; [reflexivity|].
    set (pj := (2 ^ j)%Q) in *.
    clearbody pj x'.
    split; [apply Qle_refl|]. split; [lra|]. split; lra.
  - assert (Hpos : (0 < x')%Q).
    { apply Qle_lteq in H0 as [H0|H0]; [lra|]. exfalso.
      apply Qeq_bool_neq in E. apply E. lra. }
    rewrite (Qabs_of_pos _ Hpos).
    destruct (binade_spec x' Hpos) as [Hl _]. set (l := binade x') in *.
    assert (Hnj : (inject_Z n * 2 ^ j < 2 ^ (53 + j))%Q).
    { rewrite (Qpower_plus 2 53 j) by discriminate.
      apply Qmult_lt_r; [exact Hpj|]. rewrite pow2_inject by lia.
      rewrite <- Zlt_Qlt. exact Hn. }
    assert (Hlj : l < 53 + j).
    { apply (Qpower_lt_compat_l_inv 2); [|reflexivity].
      eapply Qle_lt_trans; [exact Hl|]. eapply Qle_lt_trans; [|exact Hnj].
      rewrite Hx. exact Hb. }
    set (e := Z.max (l - 52) (-1074)).
    assert (He : e <= j) by lia.
    pose proof (pow2_pos e) as Hpe.
    pose proof (pow2_split e j) as Hsplit.
    rewrite (pow2_inject (j - e)) in Hsplit by lia.
    assert (Hhalf : (2 ^ e <= 2 ^ j)%Q) by (apply pow2_le; exact He).
    assert (H1024 : (2 ^ (53 + j) <= 2 ^ 1024)%Q) by (apply pow2_le; lia).
    set (big := (2 ^ 1024)%Q) in *. set (top := (2 ^ (53 + j))%Q) in *.
    set (pj := (2 ^ j)%Q) in *. set (pe := (2 ^ e)%Q) in *.
    clearbody big top pj pe.
    assert (Ht0 : (inject_Z 0 <= x' / pe)%Q).
    { apply Qle_shift_div_l; [exact Hpe|]. change (inject_Z 0) with 0%Q. lra. }
    assert (Ht1 : (x' / pe <= inject_Z (n * 2 ^ (j - e)))%Q).
    { apply Qle_shift_div_r; [exact Hpe|]. rewrite inject_Z_mult.
      rewrite <- Qmult_assoc, <- Hsplit. lra. }
    destruct (round_half_even_bounds _ _ _ Ht0 Ht1) as [Hm0 Hm1].
    destruct (round_half_even_close (x' / pe)) as [Hc0 Hc1].
    set (m := round_half_even (x' / pe)) in *.
    assert (Hxe : (x' / pe * pe == x')%Q) by (field; lra).
    assert (Hy0 : (0 <= inject_Z m * pe)%Q).
    { apply Qmult_le_0_compat; [|lra].
      change 0%Q with (inject_Z 0). rewrite <- Zle_Qle. exact Hm0. }
    assert (Hy1 : (inject_Z m * pe <= inject_Z n * pj)%Q).
    { rewrite Hsplit, Qmult_assoc, <- inject_Z_mult.
      apply Qmult_le_compat_r; [|lra]. rewrite <- Zle_Qle. exact Hm1. }
    assert (Hlo : ((x' / pe - (1 # 2)) * pe <= inject_Z m * pe)%Q).
    { apply Qmult_le_compat_r; [exact Hc0|lra]. }
    assert (Hhi : (inject_Z m * pe <= (x' / pe + (1 # 2)) * pe)%Q).
    { apply Qmult_le_compat_r; [exact Hc1|lra]. }
    assert (Hlo' : ((x' / pe - (1 # 2)) * pe == x' - (1 # 2) * pe)%Q).
    { rewrite <- Hxe at 2. ring. }
    assert (Hhi' : ((x' / pe + (1 # 2)) * pe == x' + (1 # 2) * pe)%Q).
    { rewrite <- Hxe at 2. ring. }
    assert (Hfin : Qle_bool big (Qabs (inject_Z m * pe)) = false).
    { destruct (Qle_bool _ _) eqn:Eo; [|reflexivity]. exfalso.
      apply Qle_bool_iff in Eo. rewrite Qabs_pos in Eo by exact Hy0. lra. }
    rewrite Hfin. eexists. split; [reflexivity|].
    rewrite Qred_correct. repeat split; lra.
Qed.

(** A ratio between 0 and 1, made a double, multiplied by 100 and rounded to
    [n] decimal places: the result is a double between 0 and 100, and what
    the three roundings to a double add to the half unit of the decimal
    rounding is below [10 ^ -12]. *)
Lemma rounded_percentage (q : Q) (n : nat) :
  (0 <= q)%Q -> (q <= 1)%Q ->
  exists x p,
    binary64 q = Finite x /\
    round (float_mul (Finite x) (Finite 100)) n = Finite p /\
    (0 <= p)%Q /\ (p <= 100)%Q /\
    let slack := (1 / inject_Z (2 * 10 ^ Z.of_nat n) + (1 # 1000000000000))%Q in
    (q * 100 - slack <= p)%Q /\ (p <= q * 100 + slack)%Q.
Proof.
  intros H0 H1.
  assert (E1 : (inject_Z (2 ^ 52) * 2 ^ (-52) == 1)%Q) by reflexivity.
  assert (E100 : (inject_Z (100 * 2 ^ 46) * 2 ^ (-46) == 100)%Q)
    by reflexivity.
  destruct (binary64_bounds q (2 ^ 52) (-52))
    as (x & Ex & Hx0 & Hx1 & Hxl & Hxh);
    [exact H0|rewrite E1; exact H1|lia|lia|].
  rewrite E1 in Hx1.
  destruct (binary64_bounds (x * 100) (100 * 2 ^ 46) (-46))
    as (y & Ey & Hy0 & Hy1 & Hyl & Hyh); [lra|rewrite E100; lra|lia|lia|].
  rewrite E100 in Hy1.
  destruct (round_percentage_bounds y n Hy0 Hy1) as [Hd0 Hd1].
  destruct (round_close y n) as [Hdl Hdh].
  destruct (binary64_bounds (round_decimal y n) (100 * 2 ^ 46) (-46))
    as (p & Ep & Hp0 & Hp1 & Hpl & Hph);
    [exact Hd0|rewrite E100; exact Hd1|lia|lia|].
  rewrite E100 in Hp1.
  exists x, p. split; [exact Ex|]. split.
  { cbn [float_mul round]. rewrite Ey. cbn [round]. exact Ep. }
  split; [exact Hp0|]. split; [exact Hp1|].
  cbv zeta.
  set (h := (1 / inject_Z (2 * 10 ^ Z.of_nat n))%Q) in *. clearbody h.
  assert (E53 : ((1 # 2) * 2 ^ (-52) == 1 # 9007199254740992)%Q)
    by reflexivity.
  assert (E47 : ((1 # 2) * 2 ^ (-46) == 1 # 140737488355328)%Q)
    by reflexivity.
  rewrite E53 in Hxl, Hxh. rewrite E47 in Hyl, Hyh, Hpl, Hph.
  split; lra.
Qed.

Lemma int_true_div_returns (a b : Z) :
  0 <= a <= 2 ^ 1023 * b -> 0 < b ->
  exists x,
    binary64 (inject_Z a / inject_Z b) = Finite x /\
    int_true_div a b = Returned (Finite x).
Proof.
  intros Ha Hb.
  assert (HbQ : (0 < inject_Z b)%Q) by (apply inject_Z_pos; exact Hb).
  destruct (binary64_bounds (inject_Z a / inject_Z b) (2 ^ 52) 971)
    as (x & Ex & _); [| |lia|lia|].
  - apply Qle_shift_div_l; [exact HbQ|]. rewrite Qmult_0_l.
    change 0%Q with (inject_Z 0). rewrite <- Zle_Qle. lia.
  - apply Qle_shift_div_r; [exact HbQ|].
    rewrite (pow2_inject 971), <- !inject_Z_mult, <- Zle_Qle by lia.
    replace (2 ^ 52 * 2 ^ 971) with (2 ^ 1023) by reflexivity. lia.
  - exists x. split; [exact Ex|]. unfold int_true_div.
    destruct (Z.eqb_spec b 0) as [->|_]; [lia|]. rewrite Ex. reflexivity.
Qed.

(** A division by a number other than zero does not raise
    [ZeroDivisionError]. *)
Lemma int_true_div_nonzero (a b : Z) :
  b <> 0 -> int_true_div a b <> Raised ZeroDivisionError.
Proof.
  intros Hb. unfold int_true_div.
  destruct (Z.eqb_spec b 0) as [->|_]; [contradiction|].
  destruct (binary64 _); discriminate.
Qed.

Lemma inject_Z_nonzero a : a <> 0 -> ~ (inject_Z a == 0)%Q.
Proof. intros Ha H. unfold Qeq in H. cbn in H. lia. Qed.

Lemma efficiency_of_returns a :
  efficiency_of a =
  Returned (if a >? 0
            then float_mul (binary64 (1 / inject_Z a)) (Finite 100)
            else Finite 0).
Proof.
  unfold efficiency_of. destruct (a >? 0) eqn:E; [|reflexivity].
  apply Z.gtb_lt in E.
  destruct (int_true_div_returns 1 a) as (x & Ex & Hd); [lia|exact E|].
  change (inject_Z 1) with 1%Q in Ex. rewrite Hd, Ex. reflexivity.
Qed.

Lemma explored_of_returns a total :
  0 <= a <= 2 ^ 1023 * total -> 0 < total ->
  explored_of a total =
  Returned (float_mul (binary64 (inject_Z a / inject_Z total)) (Finite 100)).
Proof.
  intros Ha Ht. unfold explored_of.
  destruct (int_true_div_returns a total Ha Ht) as (x & Ex & Hd).
  rewrite Hd, Ex. reflexivity.
Qed.

Lemma duration_of_returns self :
  (end_time self <> None -> start_time self <> None) ->
  exists duration, duration_of self = Returned duration.
Proof.
  unfold duration_of. intros H.
  destruct (end_time self) as [ended|]; [|eauto].
  destruct (Qeq_bool ended 0); [eauto|].
  destruct (start_time self) as [started|]; [eauto|].
  exfalso. apply H; [discriminate|reflexivity].
Qed.

(** The report, when its two unguarded operations are safe. *)
Lemma generate_report_returns now self duration :
  duration_of self = Returned duration ->
  (found self = true ->
   0 < sum_powers (len (charset self)) (len (password self)) /\
   0 <= attempts self
     <= 2 ^ 1023 * sum_powers (len (charset self)) (len (password self))) ->
  generate_report now self =
  Returned
    {| success := found self;
       rp_password := if found self then cracked_password self else None;
       performance :=
         {| total_attempts := attempts self;
            duration_seconds := round (Finite duration) 3;
            attempts_per_second :=
              round (Finite (rate_value (attempts self) duration)) 2;
            efficiency_percentage :=
              round (if attempts self >? 0
                     then float_mul (binary64 (1 / inject_Z (attempts self)))
                            (Finite 100)
                     else Finite 0) 6 |};
       search_strategy :=
         {| ss_max_length := max_length self;
            charset_size := len (charset self);
            attempts_by_length := length_attempts self |};
       password_analysis :=
         if found self then Some (analyze_password_complexity self) else None;
       timestamp := now;
       search_efficiency :=
         if found self
         then Some
                {| combinations_tried := attempts self;
                   total_search_space :=
                     sum_powers (len (charset self)) (len (password self));
                   percentage_explored :=
                     round (float_mul
                              (binary64
                                 (inject_Z (attempts self)
                                  / inject_Z (sum_powers (len (charset self))
                                                (len (password self)))))
                              (Finite 100)) 4 |}
         else None |}.
Proof.
  intros Hd Ht. unfold generate_report.
  rewrite Hd. cbn [mbind outcome_bind].
  rewrite guarded_rate_returns. cbn [mbind outcome_bind].
  rewrite efficiency_of_returns. cbn [mbind outcome_bind].
  destruct (found self) eqn:Ef; [|reflexivity].
  unfold estimate_theoretical_time. cbn [total_combinations].
  destruct (Ht eq_refl) as [Hpos Hb].
  rewrite (explored_of_returns _ _ Hb Hpos). reflexivity.
Qed.

(** Whatever the counters, a report on a non-empty search space does not
    raise [ZeroDivisionError]. *)
Lemma generate_report_nonzero now self duration :
  duration_of self = Returned duration ->
  (found self = true ->
   sum_powers (len (charset self)) (len (password self)) <> 0) ->
  generate_report now self <> Raised ZeroDivisionError.
Proof.
  intros Hd Ht. unfold generate_report.
  rewrite Hd. cbn [mbind outcome_bind].
  rewrite guarded_rate_returns. cbn [mbind outcome_bind].
  rewrite efficiency_of_returns. cbn [mbind outcome_bind].
  destruct (found self) eqn:Ef; [|discriminate].
  unfold estimate_theoretical_time, explored_of. cbn [total_combinations].
  pose proof (int_true_div_nonzero (attempts self) _ (Ht eq_refl)) as Hz.
  destruct (int_true_div _ _) as [x|e]; cbn [mbind outcome_bind mret outcome_ret].
  - discriminate.
  - intros H. apply Hz. injection H as ->. reflexivity.
Qed.

(** ** What holds of every reachable instance *)

Lemma after_crack_config time_time self t :
  let s := fst (after_crack time_time self t) in
  password s = password self /\ charset s = charset self /\
  max_length s = max_length self /\ verbose s = verbose self /\
  end_time s <> None.
Proof.
  unfold after_crack, after_attempts.
  destruct (existsb _ _); cbn; repeat split; discriminate.
Qed.

Lemma hit_in_run found0 pw cs m :
  existsb (hit pw cs) (lengths_run found0 pw cs (range1 m)) = true ->
  hit pw cs (String.length pw) = true /\ (1 <= String.length pw)%nat.
Proof.
  rewrite existsb_exists. intros (n & Hin & Hh).
  pose proof (hit_length _ _ _ Hh) as Hl. subst n. split; [exact Hh|].
  apply take_through_incl in Hin. apply range1_bounds in Hin. tauto.
Qed.

Lemma after_crack_well_formed time_time self t :
  well_formed self -> well_formed (fst (after_crack time_time self t)).
Proof.
  intros (Hst & Hf & Ha & Hk).
  destruct (after_crack_config time_time self t) as (Hpw & Hcs & _ & _ & _).
  unfold well_formed.
  rewrite after_crack_start_time, after_crack_found, after_crack_attempts,
    after_crack_checkpoints, Hpw, Hcs.
  split; [discriminate|]. split; [|split; [lia|]].
  - intros H. apply orb_true_iff in H as [H|H]; [auto|].
    exact (hit_in_run _ _ _ _ H).
  - apply Forall_app. split; [exact Hk|].
    eapply List.Forall_impl; [|apply new_checkpoints_snapshots].
    cbn beta. intros cp (i & _ & Hr & _). exact Hr.
Qed.

Lemma reachable_well_formed time_time self :
  reachable time_time self -> well_formed self.
Proof.
  induction 1 as [pw m cs v self Hi|self t b s t' _ IH Hc].
  - injection Hi as <-. unfold well_formed. cbn.
    repeat split; try congruence; try discriminate; try lia. constructor.
  - rewrite crack_returns in Hc. injection Hc as _ Hs _. subst s.
    apply after_crack_well_formed. exact IH.
Qed.

Lemma sum_powers_terms_nonneg k (l : list nat) :
  0 <= k -> 0 <= fold_right Z.add 0 (map (fun i => k ^ Z.of_nat i) l).
Proof.
  intros Hk. induction l as [|i l IH]; cbn [map fold_right]; [lia|].
  pose proof (Z.pow_nonneg k (Z.of_nat i) Hk). lia.
Qed.

Lemma sum_powers_pos k n : 1 <= k -> 1 <= n -> 0 < sum_powers k n.
Proof.
  intros Hk Hn. unfold sum_powers, range1.
  destruct (Z.to_nat n) as [|n'] eqn:E; [lia|].
  cbn [seq map fold_right].
  pose proof (sum_powers_terms_nonneg k (seq 2 n')).
  assert (0 < k ^ Z.of_nat 1) by (apply Z.pow_pos_nonneg; lia). lia.
Qed.

Lemma hit_alphabet_not_empty pw cs n :
  (1 <= n)%nat -> hit pw cs n = true -> 1 <= len cs.
Proof.
  intros Hn Hh. unfold len. rewrite <- length_chars.
  destruct (chars cs) as [|c l] eqn:E; [|cbn [length]; lia].
  unfold hit, candidates in Hh. rewrite E in Hh.
  destruct n as [|n]; [lia|]. rewrite product_nil_pool in Hh. discriminate.
Qed.

Lemma well_formed_total_pos self :
  well_formed self -> found self = true ->
  0 < sum_powers (len (charset self)) (len (password self)).
Proof.
  intros (_ & Hf & _) Hfound. destruct (Hf Hfound) as [Hh Hl].
  apply sum_powers_pos.
  - exact (hit_alphabet_not_empty _ _ _ Hl Hh).
  - unfold len. lia.
Qed.



(** With 64000 attempts [1 / attempts * 100] is 0.0015625 on the rationals,
    half way between two multiples of 0.000001, of which 0.001562 is the
    even one.  The double the division and the multiplication give lies
    above the half, and the report says 0.001563. *)
Lemma efficiency_at_64000 :
  match efficiency_of 64000 with
  | Returned x =>
      round x 6 = binary64 (1563 # 1000000) /\
      round x 6 <> binary64 (1562 # 1000000) /\
      (round_decimal (1 / 64000 * 100) 6 == 1562 # 1000000)%Q
  | Raised _ => False
  end.
Proof. vm_compute. repeat split; discriminate. Qed.

(** ** How far a successful search has gone *)

Lemma take_through_full {A : Type} (stop : A -> bool) (l : list A) :
  length (take_through stop l) = length l -> take_through stop l = l.
Proof.
  induction l as [|x l IH]; cbn [take_through]; [reflexivity|].
  destruct (stop x) eqn:E; cbn [length]; intros H.
  - destruct l; [reflexivity|discriminate].
  - f_equal. apply IH. lia.
Qed.

Lemma no_hit_below pw cs n0 :
  n0 = String.length pw ->
  existsb (is_target pw) (flat_map (candidates cs) (seq 1 (n0 - 1))) = false.
Proof.
  intros Hn. destruct (existsb _ _) eqn:E; [|reflexivity].
  apply existsb_exists in E as (g & Hin & Hg).
  apply in_flat_map in Hin as (n & Hn' & Hgn).
  assert (Hh : hit pw cs n = true) by (unfold hit; apply existsb_exists; eauto).
  apply hit_length in Hh. apply in_seq in Hn'. lia.
Qed.

(** A successful search has attempted all the candidates shorter than the
    target, and those of its length up to the match. *)
Lemma tried_when_found pw cs m :
  existsb (is_target pw) (all_candidates cs m) = true ->
  tried pw cs m =
  flat_map (candidates cs) (seq 1 (String.length pw - 1))
  ++ guesses_of_length pw cs (String.length pw).
Proof.
  intros Hf. destruct (found_bounds _ _ _ Hf) as (H1 & Hm & Hh).
  unfold tried, all_candidates, range1, len in *.
  set (n0 := String.length pw) in *.
  replace (Z.to_nat m) with ((n0 - 1) + S (Z.to_nat m - n0))%nat by lia.
  rewrite seq_app, flat_map_app.
  rewrite take_through_app_r by (apply no_hit_below; reflexivity).
  f_equal. replace (1 + (n0 - 1))%nat with n0 by lia.
  cbn [seq flat_map]. apply take_through_app_l. exact Hh.
Qed.

Lemma total_of_target pw cs :
  (1 <= String.length pw)%nat ->
  sum_powers (len cs) (len pw) =
  Z.of_nat (length (flat_map (candidates cs) (seq 1 (String.length pw - 1))))
  + Z.of_nat (length (candidates cs (String.length pw))).
Proof.
  intros H1. rewrite <- length_all_candidates.
  unfold all_candidates, range1, len. rewrite Nat2Z.id.
  set (n0 := String.length pw) in *.
  replace n0 with ((n0 - 1) + 1)%nat at 1 by lia.
  rewrite seq_app, flat_map_app, length_app, Nat2Z.inj_add.
  replace (1 + (n0 - 1))%nat with n0 by lia.
  cbn [seq flat_map]. rewrite app_nil_r. reflexivity.
Qed.

Lemma attempts_when_found pw cs m :
  existsb (is_target pw) (all_candidates cs m) = true ->
  let a := Z.of_nat (length (tried pw cs m)) in
  let total := sum_powers (len cs) (len pw) in
  0 < a <= total /\
  (a = total <->
   take_through (is_target pw) (candidates cs (String.length pw))
   = candidates cs (String.length pw)).
Proof.
  intros Hf a total. destruct (found_bounds _ _ _ Hf) as (H1 & Hm & Hh).
  unfold a, total. rewrite (tried_when_found _ _ _ Hf), (total_of_target _ _ H1).
  rewrite length_app, Nat2Z.inj_add. unfold guesses_of_length.
  pose proof (length_take_through_le (is_target pw)
                (candidates cs (String.length pw))) as Hle.
  assert (Hne : candidates cs (String.length pw) <> []).
  { intros E. unfold hit in Hh. rewrite E in Hh. discriminate. }
  pose proof (length_take_through_pos (is_target pw) _ Hne) as Hpos.
  split; [lia|]. split.
  - intros He. apply take_through_full. lia.
  - intros ->. reflexivity.
Qed.

(** C2 (amended).  Whenever a search on a new instance ends with
    [found = true], [generate_report] returns a report whose percentage of
    the search space explored is the value of
    [attempts / total_search_space * 100] rounded to 4 decimal places, the
    total being the number of candidates of the lengths up to the length of
    the target.  The reported percentage is a double between 0 and 100, both
    included, within 0.0001 of the exact ratio.  It is 100 when every one of
    these candidates was attempted, which is when the match is the last
    candidate of its length, and this happens with more than one candidate
    too (alphabet "ab", target "bb": 6 attempts out of 6).  In every other
    case the exact ratio is strictly between 0 and 100. *)
Theorem percentage_explored_bounds (time_time : nat -> Q) now pw m cs v t :
  exists self s t',
    __init__ pw m cs v = Returned self /\
    crack time_time self t = Returned (found s, (s, t')) /\
    (found s = true ->
     exists report explored p,
       generate_report now s = Returned report /\
       search_efficiency report = Some explored /\
       combinations_tried explored = attempts s /\
       total_search_space explored = sum_powers (len (charset self)) (len pw) /\
       0 < attempts s <= total_search_space explored /\
       percentage_explored explored =
         round (float_mul
                  (binary64 (inject_Z (attempts s)
                             / inject_Z (total_search_space explored)))
                  (Finite 100)) 4 /\
       percentage_explored explored = Finite p /\
       (0 <= p)%Q /\ (p <= 100)%Q /\
       (attempts s = total_search_space explored -> (p == 100)%Q) /\
       (attempts s = total_search_space explored <->
        take_through (is_target pw)
          (candidates (charset self) (String.length pw))
        = candidates (charset self) (String.length pw)) /\
       let x := (inject_Z (attempts s)
                 / inject_Z (total_search_space explored) * 100)%Q in
       (x - (1 # 10000) <= p)%Q /\ (p <= x + (1 # 10000))%Q /\
       (0 < x)%Q /\ (x <= 100)%Q /\
       ((x == 100)%Q <-> attempts s = total_search_space explored) /\
       (~ attempts s = total_search_space explored -> (x < 100)%Q)).
Proof.
  set (alphabet := charset_or_default cs).
  set (self := zeroed pw m alphabet v).
  destruct (after_crack time_time self t) as [s t'] eqn:E.
  pose proof (crack_returns time_time self t) as Hc. rewrite E in Hc.
  cbn [fst] in Hc.
  exists self, s, t'. split; [reflexivity|]. split; [exact Hc|].
  intros Hfound.
  assert (Hreach : reachable time_time s).
  { eapply reach_crack; [|exact Hc].
    apply (reach_init time_time pw m cs v). reflexivity. }
  pose proof (reachable_well_formed _ _ Hreach) as Hwf.
  pose proof (well_formed_total_pos _ Hwf Hfound) as Htot.
  destruct Hwf as (Hst & _).
  destruct (duration_of_returns s Hst) as [duration Hd].
  pose proof (generate_report_returns now s duration Hd) as Hg.
  rewrite Hfound in Hg.
  assert (Hs : s = fst (after_crack time_time self t)) by (rewrite E; reflexivity).
  assert (Hcs : charset s = alphabet /\ password s = pw).
  { rewrite Hs. destruct (after_crack_config time_time self t) as (-> & -> & _).
    split; reflexivity. }
  destruct Hcs as [Hcs Hpw]. rewrite Hcs, Hpw in Hg, Htot.
  assert (Hfa : existsb (is_target pw) (all_candidates alphabet m) = true
                /\ attempts s = Z.of_nat (length (tried pw alphabet m))).
  { rewrite Hs in Hfound |- *. unfold self in *. rewrite fresh_run in *.
    cbn [fst] in *.
    destruct (existsb (is_target pw) (all_candidates alphabet m));
      [split; reflexivity|discriminate]. }
  destruct Hfa as [Hf Ha].
  destruct (attempts_when_found pw alphabet m Hf) as [Hb Hlast].
  rewrite <- Ha in Hb, Hlast.
  set (total := sum_powers (len alphabet) (len pw)) in *.
  destruct (percentage_bounds (attempts s) total)
    as (Hx0 & Hx100 & Hxeq); [lia|lia|].
  assert (Ht : (0 < inject_Z total)%Q) by (apply inject_Z_pos; lia).
  destruct (rounded_percentage (inject_Z (attempts s) / inject_Z total) 4)
    as (x & p & Ex & Ep & Hp0 & Hp1 & Hlo & Hhi).
  { apply Qle_shift_div_l; [exact Ht|]. rewrite Qmult_0_l.
    change 0%Q with (inject_Z 0). rewrite <- Zle_Qle. lia. }
  { apply Qle_shift_div_r; [exact Ht|]. rewrite Qmult_1_l.
    rewrite <- Zle_Qle. lia. }
  eexists _, _, p. split; [apply Hg; intros _; split; lia|].
  cbn [search_efficiency combinations_tried total_search_space
       percentage_explored charset self zeroed].
  fold total.
  split; [reflexivity|]. split; [reflexivity|]. split; [reflexivity|].
  split; [exact Hb|]. split; [reflexivity|].
  split; [rewrite Ex; exact Ep|].
  split; [exact Hp0|]. split; [exact Hp1|]. split.
  { intros Hall.
    assert (E1 : (inject_Z (attempts s) / inject_Z total == 1)%Q).
    { rewrite Hall. unfold Qdiv. apply Qmult_inv_r. lra. }
    rewrite (binary64_comp _ _ E1) in Ex.
    assert (Ex1 : x = 1%Q) by (vm_compute in Ex; congruence).
    subst x. vm_compute in Ep. injection Ep as <-. reflexivity. }
  split; [exact Hlast|].
  assert (Eh : (1 / inject_Z (2 * 10 ^ Z.of_nat 4) == 1 # 20000)%Q)
    by reflexivity.
  rewrite Eh in Hlo, Hhi.
  cbv zeta. cbn [total_search_space].
  set (exact := (inject_Z (attempts s) / inject_Z total * 100)%Q) in *.
  split; [clearbody exact; lra|]. split; [clearbody exact; lra|].
  split; [exact Hx0|]. split; [exact Hx100|]. split; [exact Hxeq|].
  intros Hne. apply Qle_lteq in Hx100 as [Hlt|Heq]; [exact Hlt|].
  exfalso. apply Hne. apply Hxeq. exact Heq.
Qed.

(** Alphabet "ab", target "bb": six candidates, all of them attempted, the
    last one being the match; the report says 100. *)
Lemma explored_100_with_six_candidates :
  match run "bb" 2 (Some "ab"%string) true with
  | Returned (found1, (s, _)) =>
      found1 = true /\ attempts s = 6 /\
      length (all_candidates (charset s) (max_length s)) = 6%nat /\
      match generate_report "2026-01-01T00:00:00" s with
      | Returned report =>
          match search_efficiency report with
          | Some explored =>
              total_search_space explored = 6 /\
              percentage_explored explored = Finite 100
          | None => False
          end
      | Raised _ => False
      end
  | Raised _ => False
  end.
Proof. vm_compute. repeat split. Qed.

Lemma percentage_explored_bounds_witness :
  exists s t' report explored,
    crack tick_clock (zeroed "ba" 2 "ab" true) O = Returned (found s, (s, t')) /\
    found s = true /\
    generate_report "2026-01-01T00:00:00" s = Returned report /\
    search_efficiency report = Some explored /\
    percentage_explored explored = binary64 (833333 # 10000).
Proof.
  destruct (percentage_explored_bounds tick_clock "2026-01-01T00:00:00"
              "ba" 2 (Some "ab"%string) true O)
    as (self & s & t' & Hi & Hc & H).
  injection Hi as <-.
  assert (Hs : fst (after_crack tick_clock (zeroed "ba" 2 "ab" true) O) = s).
  { pose proof Hc as Hc'. rewrite crack_returns in Hc'.
    injection Hc' as _ Hs _. exact Hs. }
  assert (Hf : found s = true) by (rewrite <- Hs; vm_compute; reflexivity).
  destruct (H Hf) as (report & explored & p & Hg & He & _ & Ht & _ & Hx & _).
  exists s, t', report, explored.
  split; [exact Hc|]. split; [exact Hf|]. split; [exact Hg|].
  split; [exact He|].
  rewrite Hx, Ht, <- Hs. vm_compute. reflexivity.
Defined.

(** The two ends of the range are taken by the reported figure without
    being taken by the ratio: 1 attempt out of 2000001 is reported as 0,
    and 2999999 attempts out of 3000000 are reported as 100.  And 23
    attempts out of 640 make 3.59375 on the rationals, which would round to
    the even 3.5938; the double computed lies below, and the report says
    3.5937. *)
Lemma explored_at_the_ends :
  match explored_of 1 2000001, explored_of 2999999 3000000,
        explored_of 23 640 with
  | Returned low, Returned high, Returned tie =>
      round low 4 = Finite 0 /\ round high 4 = Finite 100 /\
      round tie 4 = binary64 (35937 # 10000) /\
      round tie 4 <> binary64 (35938 # 10000) /\
      (round_decimal (23 / 640 * 100) 4 == 35938 # 10000)%Q
  | _, _, _ => False
  end.
Proof. vm_compute. repeat split; discriminate. Qed.

(** ** The analyzer on an example *)

Example analyze_Pass1 :
  match __init__ "Pass1!" 6 None true with
  | Returned self =>
      let analysis := analyze_password_complexity self in
      an_length analysis = 6 /\ character_types analysis = 4 /\
      unique_chars analysis = 5 /\ exact_length_space analysis = 94 ^ 6 /\
      search_space analysis = 94 + 94 ^ 2 + 94 ^ 3 + 94 ^ 4 + 94 ^ 5 + 94 ^ 6
  | Raised _ => False
  end.
Proof. vm_compute. repeat split. Qed.

(** * Further properties *)

(** ** The enumeration covers the product, once *)

Lemma product_In {A : Type} (pool : list A) n x :
  In x (product pool n) <-> length x = n /\ Forall (fun y => In y pool) x.
Proof.
  revert x. induction n as [|n IH]; intros x.
  - cbn. split.
    + intros [<-|[]]. split; [reflexivity|constructor].
    + intros [Hl _]. destruct x; [auto|discriminate].
  - rewrite product_S_cons, in_flat_map. split.
    + intros (y & Hy & Hx). apply in_map_iff in Hx as (tl & <- & Htl).
      apply IH in Htl as [Hl Hf]. split; [cbn; lia|constructor; assumption].
    + intros [Hl Hf]. destruct x as [|y tl]; [discriminate|].
      apply Forall_cons in Hf as [Hy Hf]. exists y. split; [exact Hy|].
      apply in_map. apply IH. split; [cbn in Hl; lia|exact Hf].
Qed.

Lemma NoDup_map_inj {A B : Type} (f : A -> B) (l : list A) :
  (forall x y, f x = f y -> x = y) -> List.NoDup l -> List.NoDup (map f l).
Proof.
  intros Hinj. induction 1 as [|x l Hx _ IH]; cbn [map]; constructor; [|exact IH].
  intros Hin. apply in_map_iff in Hin as (y & E & Hy).
  apply Hinj in E. subst y. contradiction.
Qed.

Lemma NoDup_flat_map {A B : Type} (f : A -> list B) (l : list A) :
  List.NoDup l -> (forall y, In y l -> List.NoDup (f y)) ->
  (forall y1 y2 x, In y1 l -> In y2 l -> In x (f y1) -> In x (f y2) -> y1 = y2) ->
  List.NoDup (flat_map f l).
Proof.
  induction l as [|y l IH]; intros Hnd Hf Hdisj; [constructor|].
  apply List.NoDup_cons_iff in Hnd as [Hy Hnd]. cbn [flat_map].
  apply List.NoDup_app.
  - apply Hf. left. reflexivity.
  - apply IH; [exact Hnd| |].
    + intros y' Hy'. apply Hf. right. exact Hy'.
    + intros y1 y2 x H1 H2. apply Hdisj; right; assumption.
  - intros x Hx Hx'. apply in_flat_map in Hx' as (y' & Hy' & Hxy').
    assert (y = y') by (apply (Hdisj y y' x); auto; [left; auto|right; auto]).
    subst y'. contradiction.
Qed.

Lemma product_NoDup {A : Type} (pool : list A) n :
  List.NoDup pool -> List.NoDup (product pool n).
Proof.
  intros Hp. induction n as [|n IH].
  - cbn. constructor; [intros []|constructor].
  - rewrite product_S_cons. apply NoDup_flat_map; [exact Hp| |].
    + intros y _. apply NoDup_map_inj; [|exact IH]. intros a b E. congruence.
    + intros y1 y2 x _ _ H1 H2.
      apply in_map_iff in H1 as (t1 & <- & _).
      apply in_map_iff in H2 as (t2 & E & _). congruence.
Qed.

Lemma join_inj t1 t2 : join t1 = join t2 -> t1 = t2.
Proof. intros H. rewrite <- (chars_join t1), <- (chars_join t2), H. reflexivity. Qed.

(** X1.  The candidates of length [n] are exactly the strings of length [n]
    whose characters all come from the alphabet. *)
Theorem candidates_cover cs n guess :
  In guess (candidates cs n) <->
  String.length guess = n /\ Forall (fun c => In c (chars cs)) (chars guess).
Proof.
  unfold candidates. rewrite in_map_iff. split.
  - intros (x & <- & Hx). apply product_In in Hx as [Hl Hf].
    rewrite length_join, chars_join. auto.
  - intros [Hl Hf]. exists (chars guess). split; [apply join_chars|].
    apply product_In. rewrite length_chars. auto.
Qed.

(** X2.  Over an alphabet without a repeated character no candidate comes
    twice. *)
Theorem candidates_distinct cs n :
  List.NoDup (chars cs) -> List.NoDup (candidates cs n).
Proof.
  intros Hcs. unfold candidates.
  apply NoDup_map_inj; [exact join_inj|]. apply product_NoDup. exact Hcs.
Qed.

Lemma candidates_distinct_witness :
  List.NoDup (chars "ab") /\ List.NoDup (candidates "ab" 2).
Proof.
  assert (H : List.NoDup (chars "ab")).
  { repeat constructor; cbn; intuition discriminate. }
  split; [exact H|]. apply (candidates_distinct "ab" 2 H).
Defined.

(** X3.  A search on a new instance finds the target exactly when the target
    is not empty, is not longer than [max_length], and is made of characters
    of the alphabet. *)
Theorem found_iff_target_within_bounds (time_time : nat -> Q) pw m cs v t :
  exists self s t',
    __init__ pw m cs v = Returned self /\
    crack time_time self t = Returned (found s, (s, t')) /\
    (found s = true <->
     1 <= len pw <= m /\
     Forall (fun c => In c (chars (charset self))) (chars pw)).
Proof.
  set (alphabet := charset_or_default cs).
  pose proof (crack_returns time_time (zeroed pw m alphabet v) t) as Hc.
  rewrite fresh_run in Hc. cbn [fst] in Hc.
  exists (zeroed pw m alphabet v). eexists _, _.
  split; [reflexivity|]. split; [exact Hc|]. cbn [charset zeroed].
  assert (Hf : forall b r1 r2,
    found (set_end_time b
             (set_length_attempts (counts_run false pw alphabet (range1 m) ∅)
                (if existsb (is_target pw) (all_candidates alphabet m)
                 then mark_found pw r1 else r2)))
    = existsb (is_target pw) (all_candidates alphabet m) || found r2).
  { intros. destruct (existsb _ _); reflexivity. }
  rewrite Hf. cbn [found after_attempts fst set_start_time zeroed].
  rewrite orb_false_r. split.
  - intros H. destruct (found_bounds _ _ _ H) as (H1 & Hm & Hh).
    split; [unfold len in *; lia|].
    unfold hit in Hh. apply existsb_exists in Hh as (g & Hg & Ht).
    apply is_target_true in Ht. subst g.
    apply candidates_cover in Hg. tauto.
  - intros [[H1 Hm] Hall]. apply existsb_exists. exists pw.
    split; [|apply is_target_true; reflexivity].
    unfold all_candidates. apply in_flat_map. exists (String.length pw).
    split.
    + unfold range1, len in *. apply in_seq. lia.
    + apply candidates_cover. auto.
Qed.

(** ** The position of the target in the enumeration *)

Lemma index_of_lt c pool : In c pool -> (index_of c pool < length pool)%nat.
Proof.
  induction pool as [|y rest IH]; [intros []|].
  cbn [index_of length]. destruct (Ascii.eqb y c) eqn:E; [lia|].
  intros [->|H]; [rewrite Ascii.eqb_refl in E; discriminate|].
  specialize (IH H). lia.
Qed.

Lemma nth_index_of c pool d : In c pool -> nth (index_of c pool) pool d = c.
Proof.
  induction pool as [|y rest IH]; [intros []|].
  cbn [index_of]. destruct (Ascii.eqb y c) eqn:E.
  - intros _. apply Ascii.eqb_eq in E. exact E.
  - intros [->|H]; [rewrite Ascii.eqb_refl in E; discriminate|].
    cbn [nth]. apply IH. exact H.
Qed.

Lemma numeral_value_cons k d ds :
  numeral_value k (d :: ds) = (d * k ^ length ds + numeral_value k ds)%nat.
Proof.
  unfold numeral_value at 1. cbn [fold_left]. rewrite numeral_value_from. lia.
Qed.

Lemma numeral_value_lt k ds :
  Forall (fun d => (d < k)%nat) ds ->
  (numeral_value k ds < k ^ length ds)%nat.
Proof.
  induction 1 as [|d ds Hd _ IH]; [cbn; lia|].
  rewrite numeral_value_cons. cbn [length Nat.pow]. nia.
Qed.

Lemma numeral_of_value k ds :
  Forall (fun d => (d < k)%nat) ds ->
  numeral k (length ds) (numeral_value k ds) = ds.
Proof.
  induction 1 as [|d ds Hd Hds IH]; [reflexivity|].
  pose proof (numeral_value_lt k ds Hds) as Hlt.
  rewrite numeral_value_cons. cbn [length numeral].
  assert (Hk : (k ^ length ds <> 0)%nat) by lia.
  rewrite Nat.div_add_l by exact Hk.
  rewrite (Nat.div_small _ _ Hlt), Nat.add_0_r.
  rewrite Nat.add_comm, Nat.Div0.mod_add, (Nat.mod_small _ _ Hlt), IH.
  reflexivity.
Qed.

Lemma digits_of_lt cs pw :
  Forall (fun c => In c (chars cs)) (chars pw) ->
  Forall (fun d => (d < String.length cs)%nat) (digits_of cs pw).
Proof.
  unfold digits_of. rewrite <- length_chars.
  induction 1 as [|c l Hc _ IH]; cbn [map]; constructor; [|exact IH].
  apply index_of_lt. exact Hc.
Qed.

Lemma spell_digits_of cs pw :
  Forall (fun c => In c (chars cs)) (chars pw) ->
  spell cs (digits_of cs pw) = pw.
Proof.
  intros H. unfold spell, digits_of. rewrite map_map.
  rewrite <- (join_chars pw) at 2. f_equal.
  induction H as [|c l Hc _ IH]; cbn [map]; [reflexivity|].
  rewrite nth_index_of by exact Hc. f_equal. exact IH.
Qed.

(** The target sits at the index its digits spell. *)
Lemma candidates_lookup_rank cs pw :
  Forall (fun c => In c (chars cs)) (chars pw) ->
  (rank cs pw < String.length cs ^ String.length pw)%nat /\
  candidates cs (String.length pw) !! rank cs pw = Some pw.
Proof.
  intros H. pose proof (digits_of_lt cs pw H) as Hd.
  assert (Hl : length (digits_of cs pw) = String.length pw)
    by (unfold digits_of; rewrite length_map; apply length_chars).
  pose proof (numeral_value_lt _ _ Hd) as Hlt. rewrite Hl in Hlt.
  split; [exact Hlt|].
  unfold candidates. rewrite list_lookup_fmap.
  rewrite (product_lookup _ _ _ Ascii.zero)
    by (rewrite length_chars; exact Hlt).
  cbn [fmap option_fmap option_map]. f_equal.
  rewrite length_chars. unfold rank. rewrite <- Hl at 1.
  rewrite (numeral_of_value _ _ Hd). apply spell_digits_of. exact H.
Qed.

Lemma take_through_index {A : Type} (stop : A -> bool) (l : list A) i x :
  List.NoDup l -> (forall y, stop y = true <-> y = x) ->
  l !! i = Some x -> length (take_through stop l) = S i.
Proof.
  intros Hnd Hstop. revert i.
  induction Hnd as [|y l Hy _ IH]; intros i Hi; [discriminate|].
  cbn [take_through]. destruct i as [|i]; cbn in Hi.
  - injection Hi as ->. rewrite (proj2 (Hstop x) eq_refl). reflexivity.
  - destruct (stop y) eqn:E.
    + apply Hstop in E. subst y. exfalso. apply Hy.
      apply list_elem_of_In. eapply list_elem_of_lookup_2. exact Hi.
    + cbn [length]. f_equal. apply IH. exact Hi.
Qed.

(** X4.  Over an alphabet without a repeated character, a successful search
    on a new instance has made as many attempts as there are candidates
    shorter than the target, plus the value of the target read as a numeral
    in base [|A|] (each character standing for its position in the alphabet),
    plus one. *)
Theorem attempts_closed_form (time_time : nat -> Q) pw m cs v t :
  exists self s t',
    __init__ pw m cs v = Returned self /\
    crack time_time self t = Returned (found s, (s, t')) /\
    (List.NoDup (chars (charset self)) -> found s = true ->
     attempts s =
     sum_powers (len (charset self)) (len pw - 1)
     + Z.of_nat (rank (charset self) pw) + 1).
Proof.
  set (alphabet := charset_or_default cs).
  pose proof (crack_returns time_time (zeroed pw m alphabet v) t) as Hc.
  rewrite fresh_run in Hc. cbn [fst] in Hc.
  exists (zeroed pw m alphabet v). eexists _, _.
  split; [reflexivity|]. split; [exact Hc|]. cbn [charset zeroed].
  intros Hnd Hfound.
  destruct (existsb (is_target pw) (all_candidates alphabet m)) eqn:Hf;
    [|discriminate].
  cbn [attempts set_end_time set_length_attempts mark_found
       set_cracked_password set_found after_attempts fst set_start_time zeroed].
  rewrite Z.add_0_l, (tried_when_found _ _ _ Hf), length_app, Nat2Z.inj_add.
  destruct (found_bounds _ _ _ Hf) as (H1 & Hm & Hh).
  rewrite length_flat_candidates.
  assert (Hr : seq 1 (String.length pw - 1) = range1 (len pw - 1)).
  { unfold range1, len. f_equal. lia. }
  rewrite Hr. fold (sum_powers (len alphabet) (len pw - 1)).
  assert (Hall : Forall (fun c => In c (chars alphabet)) (chars pw)).
  { unfold hit in Hh. apply existsb_exists in Hh as (g & Hg & Ht).
    apply is_target_true in Ht. subst g. apply candidates_cover in Hg. tauto. }
  destruct (candidates_lookup_rank alphabet pw Hall) as [_ Hl].
  unfold guesses_of_length.
  rewrite (take_through_index _ _ (rank alphabet pw) pw).
  - lia.
  - apply candidates_distinct. exact Hnd.
  - intros y. apply is_target_true.
  - exact Hl.
Qed.

Lemma attempts_closed_form_witness :
  exists s t',
    crack tick_clock (zeroed "ba" 2 "ab" true) O = Returned (found s, (s, t')) /\
    attempts s = sum_powers (len "ab") (len "ba" - 1) + Z.of_nat (rank "ab" "ba") + 1.
Proof.
  destruct (attempts_closed_form tick_clock "ba" 2 (Some "ab"%string) true O)
    as (self & s & t' & Hi & Hc & H).
  injection Hi as <-. exists s, t'. split; [exact Hc|].
  apply H.
  - repeat constructor; cbn; intuition discriminate.
  - rewrite crack_returns in Hc. injection Hc as _ Hs _. rewrite <- Hs.
    vm_compute. reflexivity.
Defined.

(** ** The cost of a search *)

(** X5.  A search on a new instance never makes more attempts than the
    analyzer's [search_space], the number of candidates of the lengths 1 to
    [max_length]; a search that does not find the target makes exactly that
    many. *)
Theorem attempts_at_most_search_space (time_time : nat -> Q) pw m cs v t :
  exists self s t',
    __init__ pw m cs v = Returned self /\
    crack time_time self t = Returned (found s, (s, t')) /\
    0 <= attempts s <= search_space (analyze_password_complexity s) /\
    search_space (analyze_password_complexity s)
    = sum_powers (len (charset self)) m /\
    (found s = false ->
     attempts s = search_space (analyze_password_complexity s)).
Proof.
  set (alphabet := charset_or_default cs).
  pose proof (crack_returns time_time (zeroed pw m alphabet v) t) as Hc.
  rewrite fresh_run in Hc. cbn [fst] in Hc.
  exists (zeroed pw m alphabet v). eexists _, _.
  split; [reflexivity|]. split; [exact Hc|].
  pose proof (length_take_through_le (is_target pw) (all_candidates alphabet m))
    as Hle.
  pose proof (length_all_candidates alphabet m) as Hall.
  fold (tried pw alphabet m) in Hle.
  destruct (existsb (is_target pw) (all_candidates alphabet m)) eqn:Hf;
    cbn [attempts set_end_time set_length_attempts mark_found found
         set_cracked_password set_found after_attempts fst set_start_time
         zeroed analyze_password_complexity search_space charset max_length];
    rewrite Z.add_0_l.
  - split; [lia|]. split; [reflexivity|]. discriminate.
  - split; [lia|]. split; [reflexivity|]. intros _.
    unfold tried. rewrite take_through_all by exact Hf. exact Hall.
Qed.

Lemma attempts_at_most_search_space_witness :
  exists s t',
    crack tick_clock (zeroed "abc" 2 "ab" true) O = Returned (found s, (s, t'))
    /\ attempts s = search_space (analyze_password_complexity s).
Proof.
  destruct (attempts_at_most_search_space tick_clock "abc" 2
              (Some "ab"%string) true O)
    as (self & s & t' & Hi & Hc & _ & _ & H).
  injection Hi as <-. exists s, t'. split; [exact Hc|]. apply H.
  rewrite crack_returns in Hc. injection Hc as _ Hs _. rewrite <- Hs.
  vm_compute. reflexivity.
Defined.

(** ** The lengths a search visits *)

Lemma existsb_none {A : Type} (f : A -> bool) (l : list A) :
  (forall x, In x l -> f x = false) -> existsb f l = false.
Proof.
  induction l as [|x l IH]; intros H; [reflexivity|].
  cbn [existsb]. rewrite (H x) by (left; reflexivity).
  apply IH. intros y Hy. apply H. right. exact Hy.
Qed.

Lemma no_hit_other_length pw cs n :
  n <> String.length pw -> hit pw cs n = false.
Proof.
  intros Hn. destruct (hit pw cs n) eqn:E; [|reflexivity].
  apply hit_length in E. congruence.
Qed.

Lemma lengths_run_found pw cs n0 m' :
  n0 = String.length pw -> hit pw cs n0 = true ->
  (1 <= n0 <= m')%nat ->
  lengths_run false pw cs (seq 1 m') = seq 1 n0.
Proof.
  intros Hn Hh Hb. unfold lengths_run. cbn [orb].
  replace m' with ((n0 - 1) + S (m' - n0))%nat by lia.
  rewrite seq_app. rewrite take_through_app_r.
  - replace (1 + (n0 - 1))%nat with n0 by lia. cbn [seq take_through].
    rewrite Hh. replace n0 with ((n0 - 1) + 1)%nat at 3 by lia.
    rewrite seq_app. replace (1 + (n0 - 1))%nat with n0 by lia. reflexivity.
  - apply existsb_none. intros n Hin. apply in_seq in Hin.
    apply no_hit_other_length. lia.
Qed.

Lemma lengths_run_not_found pw cs m :
  existsb (is_target pw) (all_candidates cs m) = false ->
  lengths_run false pw cs (range1 m) = range1 m.
Proof.
  intros Hf. unfold lengths_run. cbn [orb]. apply take_through_all.
  rewrite <- Hf. symmetry. unfold all_candidates.
  induction (range1 m) as [|n rest IH]; [reflexivity|].
  cbn [existsb flat_map]. rewrite existsb_app, IH. reflexivity.
Qed.

Lemma length_attempts_fresh (time_time : nat -> Q) pw m alphabet v t :
  length_attempts (fst (after_crack time_time (zeroed pw m alphabet v) t))
  = counts_run false pw alphabet (range1 m) ∅.
Proof.
  rewrite fresh_run. cbn [fst].
  destruct (existsb (is_target pw) (all_candidates alphabet m)); reflexivity.
Qed.

Lemma found_fresh (time_time : nat -> Q) pw m alphabet v t :
  found (fst (after_crack time_time (zeroed pw m alphabet v) t))
  = existsb (is_target pw) (all_candidates alphabet m).
Proof.
  rewrite fresh_run. cbn [fst].
  destruct (existsb (is_target pw) (all_candidates alphabet m)); reflexivity.
Qed.

(** X6.  After a search on a new instance the per-length counts have one
    entry for each length visited and no other: the lengths 1 to
    [max_length] when the target was not found, each with the full count
    [|A| ^ n]; the lengths 1 to the length of the target when it was found,
    the shorter ones with the full count. *)
Theorem length_attempts_entries (time_time : nat -> Q) pw m cs v t :
  exists self s t',
    __init__ pw m cs v = Returned self /\
    crack time_time self t = Returned (found s, (s, t')) /\
    (found s = false ->
     forall n,
       length_attempts s !! n =
       if (1 <=? n)%nat && (Z.of_nat n <=? m)
       then Some (len (charset self) ^ Z.of_nat n) else None) /\
    (found s = true ->
     forall n,
       length_attempts s !! n =
       if (1 <=? n)%nat && (n <? String.length pw)%nat
       then Some (len (charset self) ^ Z.of_nat n)
       else if (n =? String.length pw)%nat
            then Some (Z.of_nat (length (guesses_of_length pw (charset self) n)))
            else None).
Proof.
  set (alphabet := charset_or_default cs).
  destruct (after_crack time_time (zeroed pw m alphabet v) t) as [s t'] eqn:E.
  pose proof (crack_returns time_time (zeroed pw m alphabet v) t) as Hc.
  pose proof (length_attempts_fresh time_time pw m alphabet v t) as Hla.
  pose proof (found_fresh time_time pw m alphabet v t) as Hfd.
  rewrite E in *. cbn [fst] in *.
  exists (zeroed pw m alphabet v), s, t'.
  split; [reflexivity|]. split; [exact Hc|].
  cbn [charset zeroed]. rewrite Hla, Hfd. unfold counts_run.
  assert (Hfull : forall n, n <> String.length pw ->
            Z.of_nat (length (guesses_of_length pw alphabet n))
            = len alphabet ^ Z.of_nat n).
  { intros n Hn. unfold guesses_of_length.
    rewrite take_through_all by (apply no_hit_other_length; exact Hn).
    apply length_candidates. }
  split.
  - intros Hf n. rewrite (lengths_run_not_found _ _ _ Hf).
    destruct ((1 <=? n)%nat && (Z.of_nat n <=? m)) eqn:Hb.
    + apply andb_true_iff in Hb as [H1 H2].
      apply Nat.leb_le in H1. apply Z.leb_le in H2.
      rewrite (counts_lookup_in
                 (fun n => Z.of_nat (length (guesses_of_length pw alphabet n))))
        by (unfold range1; apply in_seq; lia).
      f_equal. unfold guesses_of_length.
      rewrite take_through_all; [apply length_candidates|].
      fold (hit pw alphabet n). destruct (hit pw alphabet n) eqn:Eh;
        [|reflexivity].
      assert (Hex : existsb (is_target pw) (all_candidates alphabet m) = true).
      { unfold hit in Eh. apply existsb_exists in Eh as (g & Hg & Et).
        apply existsb_exists. exists g. split; [|exact Et].
        unfold all_candidates. apply in_flat_map. exists n.
        split; [|exact Hg]. unfold range1. apply in_seq. lia. }
      congruence.
    + rewrite (counts_lookup_out
                 (fun n => Z.of_nat (length (guesses_of_length pw alphabet n)))).
      * apply lookup_empty.
      * unfold range1. rewrite in_seq. intros Hin.
        apply andb_false_iff in Hb as [Hb|Hb];
          [apply Nat.leb_gt in Hb|apply Z.leb_gt in Hb]; lia.
  - intros Hf n. destruct (found_bounds _ _ _ Hf) as (H1 & Hm & Hh).
    unfold range1, len in *.
    rewrite (lengths_run_found pw alphabet (String.length pw)) by (auto; lia).
    destruct ((1 <=? n)%nat && (n <? String.length pw)%nat) eqn:Hb.
    + apply andb_true_iff in Hb as [Hb1 Hb2].
      apply Nat.leb_le in Hb1. apply Nat.ltb_lt in Hb2.
      rewrite (counts_lookup_in
                 (fun n => Z.of_nat (length (guesses_of_length pw alphabet n))))
        by (apply in_seq; lia).
      f_equal. apply Hfull. lia.
    + destruct (n =? String.length pw)%nat eqn:En.
      * apply Nat.eqb_eq in En. subst n.
        apply (counts_lookup_in
                 (fun n => Z.of_nat (length (guesses_of_length pw alphabet n)))).
        apply in_seq. lia.
      * apply Nat.eqb_neq in En.
        rewrite (counts_lookup_out
                   (fun n => Z.of_nat (length (guesses_of_length pw alphabet n)))).
        -- apply lookup_empty.
        -- rewrite in_seq. intros Hin.
           apply andb_false_iff in Hb as [Hb|Hb];
             [apply Nat.leb_gt in Hb|apply Nat.ltb_ge in Hb]; lia.
Qed.

Lemma length_attempts_entries_witness :
  exists s t',
    crack tick_clock (zeroed "ba" 2 "ab" true) O = Returned (found s, (s, t'))
    /\ length_attempts s !! 1%nat = Some 2
    /\ length_attempts s !! 3%nat = None.
Proof.
  destruct (length_attempts_entries tick_clock "ba" 2 (Some "ab"%string) true O)
    as (self & s & t' & Hi & Hc & _ & H).
  injection Hi as <-. exists s, t'. split; [exact Hc|].
  assert (Hf : found s = true).
  { pose proof Hc as Hc'. rewrite crack_returns in Hc'.
    injection Hc' as _ Hs _. rewrite <- Hs. vm_compute. reflexivity. }
  split; [exact (H Hf 1%nat)|exact (H Hf 3%nat)].
Defined.

(** ** The checkpoint sequence *)

Lemma new_checkpoints_increasing (time_time : nat -> Q) started v a t n :
  StronglySorted Z.lt
    (map cp_attempts (new_checkpoints time_time started v a t n)) /\
  Forall (fun cp => a < cp_attempts cp <= a + Z.of_nat n
                    /\ cp_attempts cp mod 100000 = 0)
    (new_checkpoints time_time started v a t n) /\
  (v = false -> new_checkpoints time_time started v a t n = []).
Proof.
  revert a t. induction n as [|n IH]; intros a t.
  - cbn. repeat split; constructor.
  - cbn [new_checkpoints].
    destruct (v && ((a + 1) mod 100000 =? 0)) eqn:E.
    + destruct (IH (a + 1) (S t)) as (Hs & Hf & Hv).
      apply andb_true_iff in E as [Ev E]. apply Z.eqb_eq in E.
      split; [|split].
      * cbn [map]. constructor; [exact Hs|].
        apply Forall_map. eapply List.Forall_impl; [|exact Hf].
        cbn beta. intros cp [Hb _]. cbn [cp_attempts snapshot]. lia.
      * constructor.
        -- cbn [cp_attempts snapshot]. split; [lia|exact E].
        -- eapply List.Forall_impl; [|exact Hf]. cbn beta. intros cp [Hb Hm].
           split; [lia|exact Hm].
      * intros ->. discriminate.
    + destruct (IH (a + 1) t) as (Hs & Hf & Hv).
      split; [exact Hs|]. split; [|exact Hv].
      eapply List.Forall_impl; [|exact Hf]. cbn beta. intros cp [Hb Hm].
      split; [lia|exact Hm].
Qed.

Lemma StronglySorted_lt_app (l1 l2 : list Z) (a : Z) :
  StronglySorted Z.lt l1 -> StronglySorted Z.lt l2 ->
  Forall (fun x => x <= a) l1 -> Forall (fun x => a < x) l2 ->
  StronglySorted Z.lt (l1 ++ l2).
Proof.
  intros H1 H2 Hl1 Hl2. induction H1 as [|x l1 Hs IH Hx]; [exact H2|].
  apply Forall_cons in Hl1 as [Hxa Hl1]. cbn [app]. constructor; [auto|].
  apply Forall_app. split; [exact Hx|].
  eapply List.Forall_impl; [|exact Hl2]. cbn beta. intros y Hy. lia.
Qed.

Lemma after_crack_checkpoints_ordered time_time self t :
  checkpoints_ordered self ->
  checkpoints_ordered (fst (after_crack time_time self t)).
Proof.
  intros (Hs & Hf & Ha & Hv).
  destruct (after_crack_config time_time self t) as (_ & _ & _ & Hvb & _).
  unfold checkpoints_ordered.
  rewrite after_crack_checkpoints, after_crack_attempts, Hvb.
  set (n := length (guesses_run (found self) (password self) (charset self)
                      (range1 (max_length self)))).
  destruct (new_checkpoints_increasing time_time (time_time t) (verbose self)
              (attempts self) (S t) n) as (Hs' & Hf' & Hv').
  split; [|split; [|split; [lia|]]].
  - rewrite map_app. apply (StronglySorted_lt_app _ _ (attempts self)).
    + exact Hs.
    + exact Hs'.
    + apply Forall_map. eapply List.Forall_impl; [|exact Hf].
      cbn beta. intros cp [Hb _]. lia.
    + apply Forall_map. eapply List.Forall_impl; [|exact Hf'].
      cbn beta. intros cp [Hb _]. lia.
  - apply Forall_app. split.
    + eapply List.Forall_impl; [|exact Hf]. cbn beta. intros cp [Hb Hm].
      split; [lia|exact Hm].
    + eapply List.Forall_impl; [|exact Hf']. cbn beta. intros cp [Hb Hm].
      split; [lia|exact Hm].
  - intros Hq. rewrite (Hv Hq), (Hv' Hq). reflexivity.
Qed.

(** X7.  On every reachable instance the checkpoints are in strictly
    increasing order of attempts, each of them taken at a multiple of 100000
    that is positive and not above the total attempts; and an instance that
    is not verbose has none. *)
Theorem checkpoints_increasing (time_time : nat -> Q) self :
  reachable time_time self ->
  StronglySorted Z.lt (map cp_attempts (time_checkpoints self)) /\
  Forall (fun cp => 0 < cp_attempts cp <= attempts self
                    /\ cp_attempts cp mod 100000 = 0)
    (time_checkpoints self) /\
  (verbose self = false -> time_checkpoints self = []).
Proof.
  intros Hr.
  assert (H : checkpoints_ordered self).
  { induction Hr as [pw m cs v self Hi|self t b s t' _ IH Hc].
    - injection Hi as <-. unfold checkpoints_ordered. cbn.
      repeat split; try constructor; lia.
    - rewrite crack_returns in Hc. injection Hc as _ Hs _. subst s.
      apply after_crack_checkpoints_ordered. exact IH. }
  destruct H as (H1 & H2 & _ & H4). auto.
Qed.

Lemma checkpoints_increasing_witness :
  exists s t',
    crack tick_clock (zeroed "ba" 2 "ab" false) O = Returned (found s, (s, t'))
    /\ time_checkpoints s = [].
Proof.
  destruct (after_crack tick_clock (zeroed "ba" 2 "ab" false) O)
    as [s t'] eqn:E.
  pose proof (crack_returns tick_clock (zeroed "ba" 2 "ab" false) O) as Hc.
  rewrite E in Hc. cbn [fst] in Hc.
  exists s, t'. split; [exact Hc|].
  assert (Hr : reachable tick_clock s).
  { eapply reach_crack; [|exact Hc].
    apply (reach_init tick_clock "ba" 2 (Some "ab"%string) false). reflexivity. }
  destruct (checkpoints_increasing tick_clock s Hr) as (_ & _ & Hq).
  apply Hq.
  destruct (after_crack_config tick_clock (zeroed "ba" 2 "ab" false) O)
    as (_ & _ & _ & Hv & _).
  rewrite E in Hv. exact Hv.
Defined.

(** ** What the clock and the verbosity flag cannot change *)

(** X8.  The outcome of a search on a new instance does not depend on the
    clock, on when the search starts or on the verbosity flag: two searches
    with the same target, maximum length and alphabet end with the same found
    flag, matched string, total attempts, per-length counts and per-character
    hits. *)
Theorem search_ignores_clock_and_verbosity
    (clock1 clock2 : nat -> Q) pw m cs v1 v2 t1 t2 :
  exists self1 self2 s1 s2 t1' t2',
    __init__ pw m cs v1 = Returned self1 /\
    __init__ pw m cs v2 = Returned self2 /\
    crack clock1 self1 t1 = Returned (found s1, (s1, t1')) /\
    crack clock2 self2 t2 = Returned (found s2, (s2, t2')) /\
    found s1 = found s2 /\
    cracked_password s1 = cracked_password s2 /\
    attempts s1 = attempts s2 /\
    length_attempts s1 = length_attempts s2 /\
    charset_hits s1 = charset_hits s2.
Proof.
  set (alphabet := charset_or_default cs).
  pose proof (crack_returns clock1 (zeroed pw m alphabet v1) t1) as Hc1.
  pose proof (crack_returns clock2 (zeroed pw m alphabet v2) t2) as Hc2.
  rewrite fresh_run in Hc1, Hc2. cbn [fst] in Hc1, Hc2.
  exists (zeroed pw m alphabet v1), (zeroed pw m alphabet v2).
  eexists _, _, _, _.
  split; [reflexivity|]. split; [reflexivity|].
  split; [exact Hc1|]. split; [exact Hc2|].
  destruct (existsb (is_target pw) (all_candidates alphabet m));
    repeat split; reflexivity.
Qed.

(** ** A clock that never runs backwards *)

Lemma new_checkpoints_times (time_time : nat -> Q) started v a t n :
  monotone time_time ->
  Forall (fun cp => (time_time t - started <= cp_time cp)%Q)
    (new_checkpoints time_time started v a t n) /\
  StronglySorted Qle (map cp_time (new_checkpoints time_time started v a t n)).
Proof.
  intros Hmono. revert a t. induction n as [|n IH]; intros a t.
  - cbn. split; constructor.
  - cbn [new_checkpoints]. destruct (v && ((a + 1) mod 100000 =? 0)).
    + destruct (IH (a + 1) (S t)) as [Hf Hs].
      assert (Hstep : (time_time t <= time_time (S t))%Q)
        by (apply Hmono; lia).
      assert (Hf' : Forall (fun cp => (time_time t - started <= cp_time cp)%Q)
                      (new_checkpoints time_time started v (a + 1) (S t) n)).
      { eapply List.Forall_impl; [|exact Hf]. cbn beta. intros cp Hcp. lra. }
      split.
      * constructor; [cbn [cp_time snapshot]; apply Qle_refl|exact Hf'].
      * cbn [map]. constructor; [exact Hs|].
        apply Forall_map. exact Hf'.
    + apply IH.
Qed.

Lemma after_crack_end_time time_time self t :
  end_time (fst (after_crack time_time self t)) =
  Some (time_time
          (S t + length
                   (new_checkpoints time_time (time_time t) (verbose self)
                      (attempts self) (S t)
                      (length (guesses_run (found self) (password self)
                                 (charset self) (range1 (max_length self))))))%nat).
Proof.
  unfold after_crack, after_attempts.
  destruct (existsb _ _); reflexivity.
Qed.

(** X9.  With a clock that never runs backwards, every [crack] leaves a
    start timestamp that is not after the end timestamp, so the duration of
    the report is not negative; and the checkpoints it adds carry elapsed
    times that are not negative and never decrease along the sequence. *)
Theorem monotone_clock_times (time_time : nat -> Q) self t :
  monotone time_time ->
  exists s t' started ended duration added,
    crack time_time self t = Returned (found s, (s, t')) /\
    start_time s = Some started /\ end_time s = Some ended /\
    (started <= ended)%Q /\
    duration_of s = Returned duration /\ (0 <= duration)%Q /\
    time_checkpoints s = time_checkpoints self ++ added /\
    Forall (fun cp => (0 <= cp_time cp)%Q) added /\
    StronglySorted Qle (map cp_time added).
Proof.
  intros Hmono.
  destruct (after_crack time_time self t) as [s t'] eqn:E.
  pose proof (crack_returns time_time self t) as Hc.
  pose proof (after_crack_start_time time_time self t) as Hst.
  pose proof (after_crack_end_time time_time self t) as Hen.
  pose proof (after_crack_checkpoints time_time self t) as Hk.
  rewrite E in *. cbn [fst] in *.
  set (n := length (guesses_run (found self) (password self) (charset self)
                      (range1 (max_length self)))) in *.
  destruct (new_checkpoints_times time_time (time_time t) (verbose self)
              (attempts self) (S t) n Hmono) as [Hf Hs].
  set (added := new_checkpoints time_time (time_time t) (verbose self)
                  (attempts self) (S t) n) in *.
  assert (Hle : (time_time t <= time_time (S t + length added)%nat)%Q).
  { apply Hmono. apply Nat.le_trans with (S t); [apply Nat.le_succ_diag_r|].
    apply Nat.le_add_r. }
  assert (Hstep : (time_time t <= time_time (S t))%Q)
    by (apply Hmono; apply Nat.le_succ_diag_r).
  exists s, t', (time_time t), (time_time (S t + length added)%nat).
  exists (if Qeq_bool (time_time (S t + length added)%nat) 0 then 0%Q
          else (time_time (S t + length added)%nat - time_time t)%Q), added.
  split; [exact Hc|]. split; [exact Hst|]. split; [exact Hen|].
  split; [exact Hle|]. split.
  { unfold duration_of. rewrite Hen, Hst.
    destruct (Qeq_bool (time_time (S t + length added)%nat) 0); reflexivity. }
  split.
  { destruct (Qeq_bool (time_time (S t + length added)%nat) 0);
      [apply Qle_refl|lra]. }
  split; [exact Hk|]. split; [|exact Hs].
  eapply List.Forall_impl; [|exact Hf]. cbn beta. intros cp Hcp. lra.
Qed.

Lemma tick_clock_monotone : monotone tick_clock.
Proof.
  intros i j Hij. unfold tick_clock. rewrite <- Zle_Qle. lia.
Qed.

Lemma monotone_clock_times_witness :
  exists s t' duration,
    crack tick_clock (zeroed "ba" 2 "ab" true) O = Returned (found s, (s, t'))
    /\ duration_of s = Returned duration /\ (0 <= duration)%Q.
Proof.
  destruct (monotone_clock_times tick_clock (zeroed "ba" 2 "ab" true) O
              tick_clock_monotone)
    as (s & t' & started & ended & duration & added & Hc & _ & _ & _ & Hd
        & H0 & _).
  exists s, t', duration. auto.
Defined.

(** ** The size of the search space *)

Lemma sum_powers_nonpos k n : n <= 0 -> sum_powers k n = 0.
Proof. intros H. unfold sum_powers. rewrite range1_nonpos by exact H. reflexivity. Qed.

Lemma sum_powers_succ k n :
  0 <= n -> sum_powers k (n + 1) = sum_powers k n + k ^ (n + 1).
Proof.
  intros Hn. unfold sum_powers, range1.
  replace (Z.to_nat (n + 1)) with (S (Z.to_nat n)) by lia.
  rewrite seq_S, map_app, fold_right_app. cbn [map fold_right].
  replace (Z.of_nat (1 + Z.to_nat n)) with (n + 1) by lia.
  generalize (seq 1 (Z.to_nat n)). intros l.
  induction l as [|i l IH]; cbn [map fold_right]; [lia|]. rewrite IH. lia.
Qed.

Lemma sum_powers_closed k n :
  0 <= n -> (k - 1) * sum_powers k n = k ^ (n + 1) - k.
Proof.
  intros Hn. pattern n. apply natlike_ind; [| |exact Hn].
  - rewrite sum_powers_nonpos by lia. cbn. lia.
  - intros x Hx IH. unfold Z.succ. rewrite sum_powers_succ by exact Hx.
    rewrite Z.mul_add_distr_l, IH.
    replace (x + 1 + 1) with (Z.succ (x + 1)) by lia.
    rewrite (Z.pow_succ_r k (x + 1)) by lia. lia.
Qed.

Lemma sum_powers_mono k n1 n2 :
  0 <= k -> n1 <= n2 -> sum_powers k n1 <= sum_powers k n2.
Proof.
  intros Hk Hle. destruct (Z.le_gt_cases n1 0) as [H0|H0].
  - rewrite (sum_powers_nonpos k n1 H0). unfold sum_powers.
    apply sum_powers_terms_nonneg. exact Hk.
  - replace n2 with (n1 + (n2 - n1)) by lia.
    assert (Hd : 0 <= n2 - n1) by lia. revert Hd. generalize (n2 - n1).
    intros d Hd. pattern d. apply natlike_ind; [| |exact Hd].
    + rewrite Z.add_0_r. lia.
    + intros x Hx IH. unfold Z.succ. rewrite Z.add_assoc.
      rewrite sum_powers_succ by lia.
      pose proof (Z.pow_nonneg k (n1 + x + 1) Hk). lia.
Qed.

(** X11.  The total the estimate gives is the geometric sum in closed form:
    [(k - 1) * total = k ^ (n + 1) - k] for an alphabet of [k] characters and a
    target of length [n]; over a one-character alphabet it is [n].  The
    analyzer's search space is the same sum up to [max_length], and is 0
    when [max_length] is not positive. *)
Theorem total_combinations_closed_form self :
  let estimate := estimate_theoretical_time self in
  let analysis := analyze_password_complexity self in
  let k := len (charset self) in
  (k - 1) * total_combinations estimate = k ^ (len (password self) + 1) - k /\
  (k = 1 -> total_combinations estimate = len (password self)) /\
  (0 <= max_length self ->
   (k - 1) * search_space analysis = k ^ (max_length self + 1) - k) /\
  (max_length self <= 0 -> search_space analysis = 0).
Proof.
  cbn zeta. unfold estimate_theoretical_time, analyze_password_complexity.
  cbn [total_combinations search_space].
  assert (Hl : 0 <= len (password self)) by (unfold len; lia).
  split; [apply sum_powers_closed; exact Hl|]. split; [|split].
  - intros ->. pattern (len (password self)).
    apply natlike_ind; [| |exact Hl].
    + apply sum_powers_nonpos. lia.
    + intros x Hx IH. unfold Z.succ. rewrite sum_powers_succ by exact Hx.
      rewrite IH, Z.pow_1_l by lia. reflexivity.
  - apply sum_powers_closed.
  - apply sum_powers_nonpos.
Qed.

Lemma total_combinations_closed_form_witness :
  (len "ab" - 1) * search_space (analyze_password_complexity (zeroed "ba" 2 "ab" true))
  = len "ab" ^ (2 + 1) - len "ab".
Proof.
  destruct (total_combinations_closed_form (zeroed "ba" 2 "ab" true))
    as (_ & _ & H & _).
  apply H. cbn. lia.
Defined.

(** ** The report of a successful search *)

Lemma fresh_found_state (time_time : nat -> Q) pw m alphabet v t :
  let s := fst (after_crack time_time (zeroed pw m alphabet v) t) in
  found s = true ->
  password s = pw /\ charset s = alphabet /\ max_length s = m /\
  cracked_password s = Some pw /\
  attempts s = Z.of_nat (length (tried pw alphabet m)) /\
  existsb (is_target pw) (all_candidates alphabet m) = true.
Proof.
  cbn zeta. rewrite fresh_run. cbn [fst].
  destruct (existsb (is_target pw) (all_candidates alphabet m));
    [|discriminate].
  intros _. repeat split.
Qed.

(** X14.  The report of a successful search on a new instance names the
    target as the password, and its figures are ordered: the attempts exceed
    the number of candidates shorter than the target, and do not exceed the
    total search space of the report, which in turn does not exceed the
    analyzer's search space up to [max_length]. *)
Theorem successful_report_figures (time_time : nat -> Q) now pw m cs v t :
  exists self s t',
    __init__ pw m cs v = Returned self /\
    crack time_time self t = Returned (found s, (s, t')) /\
    (found s = true ->
     exists report analysis explored,
       generate_report now s = Returned report /\
       success report = true /\
       rp_password report = Some pw /\
       password_analysis report = Some analysis /\
       search_efficiency report = Some explored /\
       combinations_tried explored = total_attempts (performance report) /\
       total_search_space explored - exact_length_space analysis
       < combinations_tried explored /\
       combinations_tried explored <= total_search_space explored /\
       total_search_space explored <= search_space analysis).
Proof.
  set (alphabet := charset_or_default cs).
  set (self := zeroed pw m alphabet v).
  destruct (after_crack time_time self t) as [s t'] eqn:E.
  pose proof (crack_returns time_time self t) as Hc. rewrite E in Hc.
  cbn [fst] in Hc.
  exists self, s, t'. split; [reflexivity|]. split; [exact Hc|].
  intros Hfound.
  assert (Hreach : reachable time_time s).
  { eapply reach_crack; [|exact Hc].
    apply (reach_init time_time pw m cs v). reflexivity. }
  pose proof (reachable_well_formed _ _ Hreach) as Hwf.
  pose proof (well_formed_total_pos _ Hwf Hfound) as Htot.
  destruct Hwf as (Hst & _).
  destruct (duration_of_returns s Hst) as [duration Hd].
  pose proof (generate_report_returns now s duration Hd) as Hg.
  pose proof (fresh_found_state time_time pw m alphabet v t) as Hs.
  fold self in Hs. rewrite E in Hs. cbn [fst] in Hs.
  destruct (Hs Hfound) as (Hpw & Hcs & Hm & Hcp & Ha & Hf).
  rewrite Hfound in Hg.
  destruct (attempts_when_found pw alphabet m Hf) as [Hb _].
  eexists _, _, _.
  split; [apply Hg; intros _; rewrite Hpw, Hcs, Ha; split; lia|].
  cbn [success rp_password password_analysis search_efficiency
       combinations_tried total_search_space performance total_attempts].
  split; [reflexivity|]. split; [exact Hcp|].
  split; [reflexivity|]. split; [reflexivity|]. split; [reflexivity|].
  unfold analyze_password_complexity.
  cbn [exact_length_space search_space]. rewrite Hpw, Hcs, Hm, Ha.
  destruct (found_bounds _ _ _ Hf) as (H1 & Hlm & Hh).
  rewrite (tried_when_found _ _ _ Hf), length_app, Nat2Z.inj_add.
  rewrite (total_of_target pw alphabet H1), length_candidates.
  pose proof (length_take_through_le (is_target pw)
                (candidates alphabet (String.length pw))) as Hle.
  assert (Hne : candidates alphabet (String.length pw) <> []).
  { intros En. unfold hit in Hh. rewrite En in Hh. discriminate. }
  pose proof (length_take_through_pos (is_target pw) _ Hne) as Hpos.
  pose proof (length_candidates alphabet (String.length pw)) as Hk.
  pose proof (sum_powers_mono (len alphabet) (len pw) m) as Hmono.
  rewrite (total_of_target pw alphabet H1), length_candidates in Hmono.
  unfold guesses_of_length.
  cbn [combinations_tried total_search_space].
  unfold len in *.
  split; [lia|]. split; [lia|]. apply Hmono; lia.
Qed.

Lemma successful_report_figures_witness :
  exists s t' report,
    crack tick_clock (zeroed "ba" 2 "ab" true) O = Returned (found s, (s, t'))
    /\ generate_report "2026-01-01T00:00:00" s = Returned report
    /\ rp_password report = Some "ba"%string.
Proof.
  destruct (successful_report_figures tick_clock "2026-01-01T00:00:00"
              "ba" 2 (Some "ab"%string) true O)
    as (self & s & t' & Hi & Hc & H).
  injection Hi as <-.
  assert (Hf : found s = true).
  { pose proof Hc as Hc'. rewrite crack_returns in Hc'.
    injection Hc' as _ Hs _. rewrite <- Hs. vm_compute. reflexivity. }
  destruct (H Hf) as (report & analysis & explored & Hg & _ & Hp & _).
  exists s, t', report. auto.
Defined.

(** ** The analyzer's counts *)

Lemma size_chars_set (l : list ascii) :
  (size (list_to_set l : gset ascii) <= length l)%nat /\
  (size (list_to_set l : gset ascii) = length l <-> List.NoDup l).
Proof.
  induction l as [|x l [IHle IHeq]].
  - cbn [list_to_set length]. rewrite size_empty. split; [lia|].
    split; [constructor|reflexivity].
  - rewrite list_to_set_cons. cbn [length].
    destruct (decide (x ∈ l)) as [Hin|Hnin].
    + assert (E : ({[x]} ∪ list_to_set l : gset ascii) = list_to_set l).
      { apply subseteq_union_1_L. apply singleton_subseteq_l.
        apply elem_of_list_to_set. exact Hin. }
      rewrite E. split; [lia|]. split; [lia|].
      intros Hnd. apply List.NoDup_cons_iff in Hnd as [Hx _].
      exfalso. apply Hx. apply list_elem_of_In. exact Hin.
    + rewrite size_union, size_singleton.
      * split; [lia|]. rewrite List.NoDup_cons_iff, <- IHeq.
        rewrite <- list_elem_of_In. split; [intros; split; [exact Hnin|lia]|lia].
      * apply disjoint_singleton_l. rewrite elem_of_list_to_set. exact Hnin.
Qed.

Lemma class_witnesses (classes : list string) (l : list ascii) :
  (forall c K1 K2 before after,
     classes = before ++ K1 :: after -> In K2 after ->
     char_in c K1 = true -> char_in c K2 = true -> False) ->
  exists witnesses,
    List.NoDup witnesses /\
    (forall c, In c witnesses ->
               In c l /\ exists K, In K classes /\ char_in c K = true) /\
    length witnesses
    = length (List.filter (fun K => existsb (fun c => char_in c K) l) classes).
Proof.
  induction classes as [|K rest IH]; intros Hdisj.
  - exists []. split; [constructor|]. split; [intros c []|reflexivity].
  - destruct IH as (W & Hnd & Hin & Hlen).
    { intros c K1 K2 before after E. apply (Hdisj c K1 K2 (K :: before) after).
      rewrite E. reflexivity. }
    cbn [List.filter].
    destruct (existsb (fun c => char_in c K) l) eqn:E.
    + apply existsb_exists in E as (c & Hc & HcK).
      exists (c :: W). split; [|split].
      * constructor; [|exact Hnd]. intros HcW.
        destruct (Hin c HcW) as (_ & K' & HK' & HcK').
        exact (Hdisj c K K' [] rest eq_refl HK' HcK HcK').
      * intros c' [<-|Hc'].
        -- split; [exact Hc|]. exists K. split; [left; reflexivity|exact HcK].
        -- destruct (Hin c' Hc') as (Hl & K' & HK' & HcK').
           split; [exact Hl|]. exists K'. split; [right; exact HK'|exact HcK'].
      * cbn [length]. f_equal. exact Hlen.
    + exists W. split; [exact Hnd|]. split; [|exact Hlen].
      intros c' Hc'. destruct (Hin c' Hc') as (Hl & K' & HK' & HcK').
      split; [exact Hl|]. exists K'. split; [right; exact HK'|exact HcK'].
Qed.

Lemma classes_disjoint c :
  (char_in c ascii_lowercase = true ->
   char_in c ascii_uppercase = false /\ char_in c digits = false
   /\ char_in c punctuation = false) /\
  (char_in c ascii_uppercase = true ->
   char_in c digits = false /\ char_in c punctuation = false) /\
  (char_in c digits = true -> char_in c punctuation = false).
Proof.
  destruct c as [[] [] [] [] [] [] [] []]; vm_compute;
    repeat split; intros; try reflexivity; discriminate.
Qed.

Lemma four_classes_disjoint c K1 K2 before after :
  [ascii_lowercase; ascii_uppercase; digits; punctuation]
  = before ++ K1 :: after ->
  In K2 after -> char_in c K1 = true -> char_in c K2 = true -> False.
Proof.
  destruct (classes_disjoint c) as (Hl & Hu & Hd).
  intros E HK2 H1 H2.
  destruct before as [|b0 [|b1 [|b2 [|b3 before]]]]; cbn [app] in E.
  - injection E as <- <-. destruct (Hl H1) as (A & B & C).
    destruct HK2 as [<-|[<-|[<-|[]]]]; congruence.
  - injection E as _ <- <-. destruct (Hu H1) as (A & B).
    destruct HK2 as [<-|[<-|[]]]; congruence.
  - injection E as _ _ <- <-. specialize (Hd H1).
    destruct HK2 as [<-|[]]; congruence.
  - injection E as _ _ _ _ <-. destruct HK2.
  - destruct before; discriminate.
Qed.

Lemma witnesses_le_size (witnesses l : list ascii) :
  List.NoDup witnesses -> (forall c, In c witnesses -> In c l) ->
  (length witnesses <= size (list_to_set l : gset ascii))%nat.
Proof.
  intros Hnd Hin.
  rewrite <- (proj2 (proj2 (size_chars_set witnesses)) Hnd).
  apply subseteq_size. intros c. rewrite !elem_of_list_to_set.
  rewrite !list_elem_of_In. apply Hin.
Qed.

(** X10.  In every analysis the number of character types is between 0 and
    4 and is at most the number of distinct characters, which is at most the
    length of the target, and equals it exactly when no character of the
    target is repeated. *)
Theorem analysis_counts self :
  let analysis := analyze_password_complexity self in
  0 <= character_types analysis <= 4 /\
  character_types analysis <= unique_chars analysis /\
  unique_chars analysis <= an_length analysis /\
  (unique_chars analysis = an_length analysis
   <-> List.NoDup (chars (password self))).
Proof.
  cbn zeta. unfold analyze_password_complexity.
  cbn [character_types unique_chars an_length].
  destruct (size_chars_set (chars (password self))) as [Hle Heq].
  destruct (class_witnesses
              [ascii_lowercase; ascii_uppercase; digits; punctuation]
              (chars (password self)))
    as (W & Hnd & Hin & Hlen).
  { intros c K1 K2 before after. apply four_classes_disjoint. }
  pose proof (witnesses_le_size W (chars (password self)) Hnd
                (fun c Hc => proj1 (Hin c Hc))) as Hw.
  rewrite Hlen in Hw. cbn [List.filter] in Hw. unfold any_in.
  unfold len. rewrite <- length_chars.
  split; [|split; [|split; [lia|]]].
  - destruct (existsb _ _), (existsb _ _), (existsb _ _), (existsb _ _); lia.
  - destruct (existsb (fun c => char_in c ascii_lowercase) _),
      (existsb (fun c => char_in c ascii_uppercase) _),
      (existsb (fun c => char_in c digits) _),
      (existsb (fun c => char_in c punctuation) _);
      cbn [length] in Hw; lia.
  - rewrite <- Heq. lia.
Qed.

(** ** Calling [crack] again *)

Lemma after_crack_length_attempts time_time self t :
  length_attempts (fst (after_crack time_time self t)) =
  counts_run (found self) (password self) (charset self)
    (range1 (max_length self)) (length_attempts self).
Proof.
  unfold after_crack, after_attempts. destruct (existsb _ _); reflexivity.
Qed.

Lemma after_crack_cracked_password time_time self t :
  cracked_password (fst (after_crack time_time self t)) =
  if existsb (hit (password self) (charset self))
       (lengths_run (found self) (password self) (charset self)
          (range1 (max_length self)))
  then Some (password self) else cracked_password self.
Proof.
  unfold after_crack, after_attempts. destruct (existsb _ _); reflexivity.
Qed.

Lemma after_crack_charset_hits time_time self t :
  charset_hits (fst (after_crack time_time self t)) =
  fold_left count_char
    (flat_map chars
       (guesses_run (found self) (password self) (charset self)
          (range1 (max_length self))))
    (charset_hits self).
Proof.
  unfold after_crack, after_attempts. destruct (existsb _ _); reflexivity.
Qed.

(** X12.  On an instance whose found flag is already set, [crack] searches
    the candidates of length 1 again and stops there, whatever
    [max_length] is: the attempts of that one length are added to the
    total, the count of length 1 is overwritten, the other per-length counts
    are kept, and the flag stays set. *)
Theorem crack_again_after_found (time_time : nat -> Q) self t :
  found self = true -> 1 <= max_length self ->
  exists s t',
    crack time_time self t = Returned (true, (s, t')) /\
    attempts s =
      attempts self
      + Z.of_nat (length (guesses_of_length (password self) (charset self) 1))
    /\
    length_attempts s =
      <[1%nat := attempts s - attempts self]> (length_attempts self) /\
    found s = true.
Proof.
  intros Hf Hm.
  destruct (after_crack time_time self t) as [s t'] eqn:E.
  pose proof (crack_returns time_time self t) as Hc.
  pose proof (after_crack_attempts time_time self t) as Ha.
  pose proof (after_crack_length_attempts time_time self t) as Hl.
  pose proof (after_crack_found time_time self t) as Hfd.
  rewrite E in *. cbn [fst] in *. rewrite Hf in *. cbn [orb] in Hfd.
  assert (Hrun : lengths_run true (password self) (charset self)
                   (range1 (max_length self)) = [1%nat]).
  { unfold lengths_run, range1.
    destruct (Z.to_nat (max_length self)) as [|k] eqn:Ek; [lia|].
    reflexivity. }
  unfold guesses_run in Ha. unfold counts_run in Hl. rewrite Hrun in Ha, Hl.
  cbn [flat_map fold_left] in Ha, Hl. rewrite app_nil_r in Ha.
  exists s, t'. rewrite Hfd in Hc.
  split; [exact Hc|]. split; [exact Ha|]. split; [|exact Hfd].
  rewrite Hl, Ha. f_equal. lia.
Qed.

Lemma crack_again_after_found_witness :
  exists s t',
    crack tick_clock (fst (after_crack tick_clock (zeroed "ab" 2 "ab" false) O))
      7 = Returned (true, (s, t')) /\
    attempts s = 4 + 2.
Proof.
  destruct (crack_again_after_found tick_clock
              (fst (after_crack tick_clock (zeroed "ab" 2 "ab" false) O)) 7)
    as (s & t' & Hc & Ha & _).
  - vm_compute. reflexivity.
  - vm_compute. discriminate.
  - exists s, t'. split; [exact Hc|]. rewrite Ha. vm_compute. reflexivity.
Defined.

(** ** What the counters hold on every reachable instance *)

Lemma count_chars_keys (alphabet l : list ascii) (hits : gmap ascii Z) :
  (forall c, In c l -> In c alphabet) ->
  (forall c n, hits !! c = Some n -> In c alphabet /\ 1 <= n) ->
  forall c n, fold_left count_char l hits !! c = Some n ->
              In c alphabet /\ 1 <= n.
Proof.
  revert hits. induction l as [|x l IH]; intros hits Hl Hh; [exact Hh|].
  cbn [fold_left]. apply IH.
  - intros c Hc. apply Hl. right. exact Hc.
  - intros c n. unfold count_char.
    destruct (Ascii.ascii_dec x c) as [->|Hne].
    + rewrite lookup_insert_eq. intros [= <-].
      split; [apply Hl; left; reflexivity|].
      destruct (hits !! c) as [k|] eqn:Ek; cbn [default id]; [|lia].
      destruct (Hh c k Ek). lia.
    + rewrite lookup_insert_ne by exact Hne. apply Hh.
Qed.

Lemma guesses_run_chars found0 pw cs lengths c :
  In c (flat_map chars (guesses_run found0 pw cs lengths)) -> In c (chars cs).
Proof.
  intros H. apply in_flat_map in H as (g & Hg & Hc).
  unfold guesses_run in Hg. apply in_flat_map in Hg as (n & _ & Hgn).
  unfold guesses_of_length in Hgn. apply take_through_incl in Hgn.
  apply candidates_cover in Hgn as [_ Hall].
  rewrite List.Forall_forall in Hall. apply Hall. exact Hc.
Qed.

Lemma after_crack_counters_sound time_time self t :
  counters_sound self -> counters_sound (fst (after_crack time_time self t)).
Proof.
  intros [Hh Hc].
  destruct (after_crack_config time_time self t) as (Hpw & Hcs & _).
  unfold counters_sound.
  rewrite after_crack_charset_hits, after_crack_cracked_password,
    after_crack_found, Hpw, Hcs, Hc.
  split.
  - apply count_chars_keys; [|exact Hh].
    intros c. apply guesses_run_chars.
  - destruct (existsb _ _); [rewrite orb_true_r; reflexivity|].
    rewrite orb_false_r. reflexivity.
Qed.

Lemma reachable_counters_sound time_time self :
  reachable time_time self -> counters_sound self.
Proof.
  induction 1 as [pw m cs v self Hi|self t b s t' _ IH Hc].
  - injection Hi as <-. split; [|reflexivity].
    intros c n. cbn. rewrite lookup_empty. discriminate.
  - rewrite crack_returns in Hc. injection Hc as _ Hs _. subst s.
    apply after_crack_counters_sound. exact IH.
Qed.

(** X13.  On every reachable instance the per-character hits have entries
    for characters of the alphabet only, and every entry is at least 1. *)
Theorem charset_hits_keys (time_time : nat -> Q) self :
  reachable time_time self ->
  forall c n,
    charset_hits self !! c = Some n ->
    In c (chars (charset self)) /\ 1 <= n.
Proof. intros Hr. exact (proj1 (reachable_counters_sound _ _ Hr)). Qed.

(** X16.  On every reachable instance the matched string is the target when
    the found flag is set, and is absent when it is not. *)
Theorem cracked_password_iff_found (time_time : nat -> Q) self :
  reachable time_time self ->
  cracked_password self = (if found self then Some (password self) else None).
Proof. intros Hr. exact (proj2 (reachable_counters_sound _ _ Hr)). Qed.

(** ** Character counts of an exhaustive search *)

Lemma count_flat_cons (c y : ascii) (tuples : list (list ascii)) :
  count_occ Ascii.ascii_dec (flat_map (fun x => x) (map (cons y) tuples)) c =
  (length tuples * count_occ Ascii.ascii_dec [y] c
   + count_occ Ascii.ascii_dec (flat_map (fun x => x) tuples) c)%nat.
Proof.
  induction tuples as [|x tuples IH]; [reflexivity|].
  cbn [map flat_map length]. change (y :: x) with ([y] ++ x).
  rewrite !count_occ_app, IH. lia.
Qed.

Lemma count_flat_product_step (c : ascii) pool (tuples : list (list ascii)) :
  count_occ Ascii.ascii_dec
    (flat_map (fun x => x) (flat_map (fun y => map (cons y) tuples) pool)) c =
  (length tuples * count_occ Ascii.ascii_dec pool c
   + length pool
     * count_occ Ascii.ascii_dec (flat_map (fun x => x) tuples) c)%nat.
Proof.
  induction pool as [|y pool IH]; [cbn; lia|].
  cbn [flat_map length]. rewrite flat_map_app.
  rewrite count_occ_app, IH, count_flat_cons.
  change (y :: pool) with ([y] ++ pool).
  rewrite (count_occ_app _ [y] pool). lia.
Qed.

Lemma count_flat_product (c : ascii) pool n :
  count_occ Ascii.ascii_dec (flat_map (fun x => x) (product pool (S n))) c =
  (S n * length pool ^ n * count_occ Ascii.ascii_dec pool c)%nat.
Proof.
  induction n as [|n IH].
  - rewrite product_S_cons, count_flat_product_step. cbn. lia.
  - rewrite product_S_cons, count_flat_product_step, IH, length_product.
    cbn [Nat.pow]. nia.
Qed.

Lemma chars_candidates cs n :
  flat_map chars (candidates cs n)
  = flat_map (fun x => x) (product (chars cs) n).
Proof.
  unfold candidates. rewrite flat_map_map.
  apply flat_map_ext. intros x. apply chars_join.
Qed.

Lemma occurrences_all_candidates c cs m :
  occurrences c (all_candidates cs m) =
  position_uses (len cs) m
  * Z.of_nat (count_occ Ascii.ascii_dec (chars cs) c).
Proof.
  unfold occurrences, all_candidates, position_uses.
  assert (Hpos : forall n, In n (range1 m) -> (1 <= n)%nat)
    by (intros n Hn; apply range1_bounds in Hn; tauto).
  induction (range1 m) as [|n rest IH]; [reflexivity|].
  cbn [flat_map map fold_right]. rewrite flat_map_app, count_occ_app.
  rewrite Nat2Z.inj_add, IH by (intros k Hk; apply Hpos; right; exact Hk).
  rewrite chars_candidates.
  assert (Hn : (1 <= n)%nat) by (apply Hpos; left; reflexivity).
  destruct n as [|n]; [lia|]. rewrite count_flat_product.
  rewrite length_chars. replace (S n - 1)%nat with n by lia.
  rewrite !Nat2Z.inj_mul, Nat2Z.inj_pow. unfold len. lia.
Qed.

(** X15.  After a search on a new instance that has not found the target,
    the hit count of a character is the number of times it occurs in the
    alphabet multiplied by the sum of [n * |A| ^ (n - 1)] over the lengths
    [n] from 1 to [max_length]: the characters of an alphabet without
    repetitions all have the same count, and the counts say nothing about
    the target. *)
Theorem charset_hits_uniform (time_time : nat -> Q) pw m cs v t :
  exists self s t',
    __init__ pw m cs v = Returned self /\
    crack time_time self t = Returned (found s, (s, t')) /\
    (found s = false ->
     forall c,
       default 0 (charset_hits s !! c) =
       position_uses (len (charset self)) m
       * Z.of_nat (count_occ Ascii.ascii_dec (chars (charset self)) c)).
Proof.
  set (alphabet := charset_or_default cs).
  pose proof (crack_returns time_time (zeroed pw m alphabet v) t) as Hc.
  rewrite fresh_run in Hc. cbn [fst] in Hc.
  exists (zeroed pw m alphabet v). eexists _, _.
  split; [reflexivity|]. split; [exact Hc|]. cbn [charset zeroed].
  destruct (existsb (is_target pw) (all_candidates alphabet m)) eqn:Hf;
    [discriminate|].
  intros _ c.
  cbn [charset_hits set_end_time set_length_attempts after_attempts fst
       set_start_time zeroed].
  rewrite count_chars_lookup, lookup_empty. cbn [default].
  unfold tried. rewrite take_through_all by exact Hf.
  rewrite Z.add_0_l. apply occurrences_all_candidates.
Qed.

Lemma charset_hits_uniform_witness :
  exists s t',
    crack tick_clock (zeroed "abc" 2 "ab" true) O = Returned (found s, (s, t'))
    /\ default 0 (charset_hits s !! "a"%char) = 5
    /\ default 0 (charset_hits s !! "b"%char) = 5.
Proof.
  destruct (charset_hits_uniform tick_clock "abc" 2 (Some "ab"%string) true O)
    as (self & s & t' & Hi & Hc & H).
  injection Hi as <-. exists s, t'. split; [exact Hc|].
  assert (Hf : found s = false).
  { pose proof Hc as Hc'. rewrite crack_returns in Hc'.
    injection Hc' as _ Hs _. rewrite <- Hs. vm_compute. reflexivity. }
  split; [exact (H Hf "a"%char)|exact (H Hf "b"%char)].
Defined.

Ltac all_in :=
  repeat (apply List.Forall_cons; [cbn; auto|]); apply List.Forall_nil.

Lemma candidates_cover_witness : In "ba"%string (candidates "ab" 2).
Proof.
  apply (proj2 (candidates_cover "ab" 2 "ba")).
  split; [reflexivity|]. all_in.
Defined.

Lemma found_iff_target_within_bounds_witness :
  exists s t',
    crack tick_clock (zeroed "ba" 2 "ab" true) O = Returned (found s, (s, t'))
    /\ found s = true.
Proof.
  destruct (found_iff_target_within_bounds tick_clock "ba" 2 (Some "ab"%string) true O)
    as (self & s & t' & Hi & Hc & H).
  injection Hi as <-. exists s, t'. split; [exact Hc|].
  apply (proj2 H). split; [vm_compute; split; discriminate|]. all_in.
Defined.

Lemma analysis_counts_witness :
  unique_chars (analyze_password_complexity (zeroed "ba" 2 "ab" true))
  = an_length (analyze_password_complexity (zeroed "ba" 2 "ab" true)).
Proof.
  destruct (analysis_counts (zeroed "ba" 2 "ab" true)) as (_ & _ & _ & H).
  apply (proj2 H). repeat constructor; cbn; intuition discriminate.
Defined.

Lemma reachable_ba : 
  reachable tick_clock (fst (after_crack tick_clock (zeroed "ba" 2 "ab" true) O)).
Proof.
  eapply reach_crack; [|apply crack_returns].
  apply (reach_init tick_clock "ba" 2 (Some "ab"%string) true). reflexivity.
Qed.

Lemma charset_hits_keys_witness :
  In "a"%char (chars "ab") /\ 1 <= 5.
Proof.
  apply (charset_hits_keys tick_clock
           (fst (after_crack tick_clock (zeroed "ba" 2 "ab" true) O))
           reachable_ba "a"%char 5).
  vm_compute. reflexivity.
Defined.

Lemma cracked_password_iff_found_witness :
  cracked_password (fst (after_crack tick_clock (zeroed "ba" 2 "ab" true) O))
  = Some "ba"%string.
Proof.
  rewrite (cracked_password_iff_found tick_clock _ reachable_ba).
  vm_compute. reflexivity.
Defined.
